(** * tfridge: the extractor, the registry client and the report printer

    A shallow embedding of [tfridge.go].  Go strings are byte strings and are
    rendered as [string]; the two maps of [main] are [gmap string string];
    the registry, the standard output and run-time panics are made explicit
    in a small state monad further down. *)

From Stdlib Require Import Ascii String List ZArith Bool Lia.
From Stdlib Require Import Permutation Sorted DecimalString.
From Stdlib Require DecimalN DecimalPos.
From stdpp Require Import gmap strings.

Local Open Scope Z_scope.

(** ** Characters and string helpers *)

(** The double quote, written by its code so that no literal has to escape it. *)
Definition DQ : ascii := "034"%char.
Definition SQ : ascii := "'"%char.

(** [quoted s] is [s] between double quotes. *)
Definition quoted (s : string) : string := String DQ (s +:+ String DQ "").

Definition is_char (c : ascii) : ascii → bool := Ascii.eqb c.

(** Go's [\s] is exactly the class [[\t\n\f\r ]]. *)
Definition is_space (c : ascii) : bool :=
  match nat_of_ascii c with
  | 9%nat | 10%nat | 12%nat | 13%nat | 32%nat => true
  | _ => false
  end.

Definition is_quote (c : ascii) : bool := Ascii.eqb c DQ || Ascii.eqb c SQ.

(** ** The fragment of [regexp] the program uses

    Every pattern of [extractModules] is a sequence of character classes,
    each taken once, zero or more times ([*]) or one or more times ([+]),
    with at most one capture group around a single repeated class.  The
    matcher below is the backtracking reading of such a sequence: leftmost
    start, greedy repetition, earlier alternatives first, which is the match
    Go's engine reports.  All the literal characters and the delimiters of
    the classes are ASCII, so matching bytes or UTF-8 sequences selects the
    same substrings. *)

Inductive quant := One | Star | Plus.

Record atom := Atom { cls : ascii → bool; rep : quant; grp : bool }.

Definition regex := list atom.

(** A match: the matched text and the text of capture group 1. *)
Definition submatch := (string * string)%type.

Definition consume (a : atom) (c : ascii) (r : submatch) : submatch :=
  (String c r.1, if grp a then String c r.2 else r.2).

(** [star a k s]: take as many characters of the class as possible, giving
    them back one at a time while the continuation [k] fails. *)
Fixpoint star (a : atom) (k : string → option submatch) (s : string)
  : option submatch :=
  match s with
  | String c s' =>
      if cls a c then
        match star a k s' with
        | Some r => Some (consume a c r)
        | None => k s
        end
      else k s
  | EmptyString => k s
  end.

Fixpoint match_here (re : regex) (s : string) : option submatch :=
  match re with
  | [] => Some (EmptyString, EmptyString)
  | a :: re' =>
      match rep a with
      | One =>
          match s with
          | String c s' =>
              if cls a c then consume a c <$> match_here re' s' else None
          | EmptyString => None
          end
      | Star => star a (match_here re') s
      | Plus =>
          match s with
          | String c s' =>
              if cls a c then consume a c <$> star a (match_here re') s'
              else None
          | EmptyString => None
          end
      end
  end.

(** [FindStringSubmatch]: the leftmost match, [None] for Go's [nil]. *)
Fixpoint FindStringSubmatch (re : regex) (s : string) : option submatch :=
  match match_here re s with
  | Some r => Some r
  | None =>
      match s with
      | String _ s' => FindStringSubmatch re s'
      | EmptyString => None
      end
  end.

Definition MatchString (re : regex) (s : string) : bool :=
  bool_decide (is_Some (FindStringSubmatch re s)).

(** Building blocks for writing the patterns down. *)
Fixpoint lit (s : string) : regex :=
  match s with
  | EmptyString => []
  | String c s' => Atom (is_char c) One false :: lit s'
  end.

Definition spaces0 : regex := [Atom is_space Star false].
Definition spaces1 : regex := [Atom is_space Plus false].
Definition a_quote : regex := [Atom is_quote One false].

(** The pattern: module, one or more spaces, a double quote, one or more
    characters other than a double quote, a double quote, optional spaces
    and an opening brace. *)
Definition moduleRegex : regex :=
  lit "module" ++ spaces1 ++ lit (String DQ "")
    ++ [Atom (λ c, negb (Ascii.eqb c DQ)) Plus false]
    ++ lit (String DQ "") ++ spaces0 ++ lit "{".

(** The pattern of an assignment to [key] (source or version): the key,
    optional spaces, an equals sign, optional spaces, a quote of either
    kind, the captured group of one or more characters that are not quotes,
    and a quote of either kind. *)
Definition assignRegex (key : string) : regex :=
  lit key ++ spaces0 ++ lit "=" ++ spaces0 ++ a_quote
    ++ [Atom (λ c, negb (is_quote c)) Plus true] ++ a_quote.

Definition sourceRegex : regex := assignRegex "source".
Definition versionRegex : regex := assignRegex "version".

(** The pattern: provider, optional spaces, a quote of either kind, the
    captured group of one or more characters that are not quotes, and a
    quote of either kind. *)
Definition providerRegex : regex :=
  lit "provider" ++ spaces0 ++ a_quote
    ++ [Atom (λ c, negb (is_quote c)) Plus true] ++ a_quote.

(** ** extractModules

    [bufio.Scanner] hands the file over line by line (newline removed, one
    trailing carriage return dropped); the scan is modelled on that list of
    lines.  The two maps are the ones [main] allocates and every call
    mutates. *)

Record maps := Maps { moduleMap : gmap string string;
                      providerMap : gmap string string }.

(** The inner loop, lines 118-129: runs over the lines after the opener,
    keeps the last [source] and the last [version] seen, stops after a line
    that is exactly [}] or at the end of the file.  Returns the two
    variables and the lines left for the outer loop. *)
Fixpoint moduleBody (source version : string) (lines : list string)
  : string * string * list string :=
  match lines with
  | [] => (source, version, [])
  | line :: rest =>
      let source :=
        match FindStringSubmatch sourceRegex line with
        | Some sourceMatch => sourceMatch.2
        | None => source
        end in
      let version :=
        match FindStringSubmatch versionRegex line with
        | Some versionMatch => versionMatch.2
        | None => version
        end in
      if String.eqb line "}" then (source, version, rest)
      else moduleBody source version rest
  end.

(** Lines 131-133. *)
Definition emitModule (source version : string) (m : maps) : maps :=
  if String.eqb source "" then m
  else Maps (<[source := version]> (moduleMap m)) (providerMap m).

(** Lines 135-147: a provider line is a declaration by itself. *)
Definition emitProvider (line : string) (m : maps) : maps :=
  let provider :=
    match FindStringSubmatch providerRegex line with
    | Some providerMatch => providerMatch.2
    | None => ""
    end in
  let version :=
    match FindStringSubmatch versionRegex line with
    | Some versionMatch => versionMatch.2
    | None => ""
    end in
  if String.eqb provider "" then m
  else Maps (moduleMap m) (<[provider := version]> (providerMap m)).

(** The loop of lines 112-149.  The inner loop reads from the same scanner,
    so the outer loop resumes on the line after the one that closed the
    block; the inner [fix] is [moduleBody] continued by the rest of the
    outer loop. *)
Fixpoint scanLines (lines : list string) (m : maps) : maps :=
  match lines with
  | [] => m
  | line :: rest =>
      if MatchString moduleRegex line then
        (fix inner (source version : string) (ls : list string) : maps :=
           match ls with
           | [] => emitModule source version m
           | l :: ls' =>
               let source :=
                 match FindStringSubmatch sourceRegex l with
                 | Some sourceMatch => sourceMatch.2
                 | None => source
                 end in
               let version :=
                 match FindStringSubmatch versionRegex l with
                 | Some versionMatch => versionMatch.2
                 | None => version
                 end in
               if String.eqb l "}"
               then scanLines ls' (emitModule source version m)
               else inner source version ls'
           end) "" "" rest
      else if MatchString providerRegex line then
        scanLines rest (emitProvider line m)
      else scanLines rest m
  end.

(** ** Files, the walk and errors *)

(** Go's [error] values, by the place that creates them; [Error] is the
    text [%s] prints. *)
Inductive error :=
  | FileError (msg : string)                (* os.Open, the scanner, the walk *)
  | GetError (msg : string)                 (* returned by http.Get *)
  | ModuleStatusError (code : Z)            (* line 171 *)
  | ProviderStatusError (code : Z)          (* line 219 *)
  | DecodeError (msg : string)              (* returned by Decode *)
  | FormatError (providerSource : string).  (* line 206 *)

Definition Itoa (n : Z) : string := NilEmpty.string_of_int (Z.to_int n).

Definition Error (e : error) : string :=
  match e with
  | FileError msg | GetError msg | DecodeError msg => msg
  | ModuleStatusError code =>
      "failed to fetch latest version, status code: " +:+ Itoa code
  | ProviderStatusError code =>
      "failed to fetch latest version for provider, status code: "
        +:+ Itoa code
  | FormatError providerSource =>
      "provider format is incorrect: " +:+ providerSource
  end.

(** What [os.Open] and the scanner give for one path: the open fails, or the
    scanner yields its lines and ends with [scanner.Err()]. *)
Inductive file :=
  | OpenFails (e : error)
  | Scanned (lines : list string) (scanErr : option error).

(** Lines 97-156.  The maps are shared with the caller: what was inserted
    before an error stays inserted. *)
Definition extractModules (f : file) (m : maps) : maps * option error :=
  match f with
  | OpenFails e => (m, Some e)
  | Scanned lines scanErr => (scanLines lines m, scanErr)
  end.

(** The walk of lines 37-54, on the files with extension [.tf] it reaches
    outside hidden directories, in visiting order: the first error stops
    it. *)
Fixpoint walk (files : list file) (m : maps) : maps * option error :=
  match files with
  | [] => (m, None)
  | f :: files' =>
      match extractModules f m with
      | (m', Some e) => (m', Some e)
      | (m', None) => walk files' m'
      end
  end.

(** ** The outside world: registry, standard output, panics *)

(** The body of a response as [json.Decode] sees it. *)
Inductive body :=
  | Malformed (e : string)
  | Versions (versions : list string).

Inductive response :=
  | GetFails (e : string)
  | Response (StatusCode : Z) (Body : body).

(** The registry answers a URL, possibly depending on the requests made
    before. *)
Definition registry := list string → string → response.

Record World := { requests : list string; stdout : list string }.

Inductive outcome (A : Type) :=
  | Returned (a : A)
  | Panicked (msg : string).
Arguments Returned {A} a.
Arguments Panicked {A} msg.

Definition IO (A : Type) : Type := World → outcome A * World.

#[export] Instance IO_ret : MRet IO := λ A a w, (Returned a, w).
#[export] Instance IO_bind : MBind IO := λ A B k c w,
  match c w with
  | (Returned a, w') => k a w'
  | (Panicked msg, w') => (Panicked msg, w')
  end.

Definition panic {A} (msg : string) : IO A := λ w, (Panicked msg, w).

Definition Printf (text : string) : IO unit := λ w,
  (Returned (), {| requests := requests w; stdout := stdout w ++ [text] |}).

Definition http_Get (reg : registry) (url : string) : IO response := λ w,
  (Returned (reg (requests w) url),
   {| requests := requests w ++ [url]; stdout := stdout w |}).

Definition StatusOK : Z := 200.

Definition NL : string := String "010"%char "".

(** ** strings.Split

    For a non-empty separator: cut at the successive non-overlapping
    occurrences, left to right.  [skip] counts the characters still to drop
    from the occurrence just found; the head of the result is the piece
    being read.  (With an empty separator Go cuts after every UTF-8
    sequence; the program never does that, and the model then cuts after
    every byte.) *)
Fixpoint HasPrefix (s prefix : string) {struct prefix} : bool :=
  match prefix with
  | EmptyString => true
  | String a prefix' =>
      match s with
      | String b s' => Ascii.eqb a b && HasPrefix s' prefix'
      | EmptyString => false
      end
  end.

Fixpoint Split_go (sep : string) (skip : nat) (s : string) : list string :=
  match s with
  | EmptyString => [""]
  | String c s' =>
      match skip with
      | S k => Split_go sep k s'
      | O =>
          if HasPrefix s sep
          then "" :: Split_go sep (String.length sep - 1) s'
          else match Split_go sep 0 s' with
               | piece :: pieces => String c piece :: pieces
               | [] => [String c ""]
               end
      end
  end.

Definition Split (s sep : string) : list string :=
  match sep with
  | EmptyString => (λ c, String c "") <$> list_ascii_of_string s
  | _ => Split_go sep 0 s
  end.

(** ** The semver package and sort.Slice

    [getLatestVersion] uses the package through four operations; they are
    kept as an interface here, and a model of the package is given in
    [Module Semver] below.  [NewVersion] returns [None] where Go returns a
    non-nil error. *)
Class SemverPkg := {
  Version : Type;
  NewVersion : string → option Version;
  Compare : Version → Version → comparison;
  Version_String : Version → string;
}.

(** [v.GreaterThan(o)] is [v.Compare(o) > 0]. *)
Definition GreaterThan `{SemverPkg} (v o : Version) : bool :=
  match Compare v o with Gt => true | _ => false end.

(** What the program relies on: [Compare] orders the versions (up to build
    metadata), [String] never prints the empty string, and what it prints
    for a parsed version parses again. *)
Class SemverLaws (P : SemverPkg) : Prop := {
  Compare_antisym : ∀ a b, Compare b a = CompOpp (Compare a b);
  Compare_lt_trans : ∀ a b c,
    Compare a b = Lt → Compare b c = Lt → Compare a c = Lt;
  Compare_eq_compat : ∀ a b c,
    Compare a b = Eq → Compare a c = Compare b c;
  String_nonempty : ∀ v, Version_String v ≠ "";
  String_valid : ∀ x v,
    NewVersion x = Some v → is_Some (NewVersion (Version_String v));
}.

(** [less] is a strict weak order: what [sort.Slice] asks of its argument. *)
Record StrictWeak {A} (less : A → A → bool) : Prop := {
  sw_irrefl : ∀ a, less a a = false;
  sw_trans : ∀ a b c, less a b = true → less b c = true → less a c = true;
  sw_incomp : ∀ a b c,
    less a b = false → less b a = false →
    less b c = false → less c b = false →
    less a c = false ∧ less c a = false;
}.

(** [sort.Slice(x, less)]: the slice is permuted in place, and afterwards
    [sort.SliceIsSorted(x, less)] holds when [less] is a strict weak order.
    The sort is not stable, so equal elements may come out in any order. *)
Class Sorter := { sort_Slice : ∀ {A}, (A → A → bool) → list A → list A }.

Class SorterSpec (S : Sorter) : Prop := {
  sort_Slice_perm : ∀ A (less : A → A → bool) x, sort_Slice less x ≡ₚ x;
  sort_Slice_sorted : ∀ A (less : A → A → bool) x,
    StrictWeak less → Sorted (λ a b, less b a = false) (sort_Slice less x);
}.

(** ** The registry client *)

Section client.
Context `{P : SemverPkg} `{S : Sorter}.
Variable reg : registry.

(** Lines 183-188 and 231-236. *)
Definition validVersions (versions : list string) : list Version :=
  omap NewVersion versions.

(** Lines 179-194 and 227-242, the same text in both functions.  When
    nothing is valid the slice is empty and indexing it panics. *)
Definition latest (versions : list string) : IO (string * option error) :=
  if bool_decide (length versions = 0%nat) then mret ("Not found", None)
  else
    match sort_Slice GreaterThan (validVersions versions) with
    | v :: _ => mret (Version_String v, None)
    | [] => panic "runtime error: index out of range [0] with length 0"
    end.

Definition moduleURL (module : string) : string :=
  "https://registry.terraform.io/v1/modules/" +:+ module.

Definition providerURL (providerSource : string) : string :=
  "https://registry.terraform.io/v1/providers/" +:+ providerSource.

(** Lines 158-195. *)
Definition getLatestVersion (moduleSource : string)
  : IO (string * option error) :=
  let parts := Split moduleSource "//" in
  let module := default "" (head parts) in
  resp ← http_Get reg (moduleURL module);
  match resp with
  | GetFails e => mret ("", Some (GetError e))
  | Response StatusCode Body =>
      if negb (StatusCode =? StatusOK) then
        mret ("", Some (ModuleStatusError StatusCode))
      else
        match Body with
        | Malformed e => mret ("", Some (DecodeError e))
        | Versions versions => latest versions
        end
  end.

(** Lines 197-243. *)
Definition getLatestProviderVersion (providerSource : string)
  : IO (string * option error) :=
  let parts := Split providerSource "/" in
  let lookup (providerSource : string) : IO (string * option error) :=
    resp ← http_Get reg (providerURL providerSource);
    match resp with
    | GetFails e => mret ("", Some (GetError e))
    | Response StatusCode Body =>
        if negb (StatusCode =? StatusOK) then
          mret ("", Some (ProviderStatusError StatusCode))
        else
          match Body with
          | Malformed e => mret ("", Some (DecodeError e))
          | Versions versions => latest versions
          end
    end in
  if bool_decide (length parts = 2%nat) then lookup providerSource
  else if bool_decide (length parts = 1%nat)
       then lookup ("hashicorp/" +:+ providerSource)
       else mret ("", Some (FormatError providerSource)).

(** ** The report, lines 61-93 *)

Definition printLatest (latestVersion : string) : IO unit :=
  if String.eqb latestVersion ""
  then Printf ("Latest version: Not found" +:+ NL +:+ NL)
  else Printf ("Latest version: " +:+ latestVersion +:+ NL +:+ NL).

(** One turn of the loop over [moduleMap]. *)
Definition reportModule (entry : string * string) : IO unit :=
  let '(source, currentVersion) := entry in
  '(latestVersion, err) ← getLatestVersion source;
  match err with
  | Some e =>
      Printf ("Error fetching latest version for " +:+ source +:+ ": "
                +:+ Error e +:+ NL)
  | None =>
      Printf ("Module source: " +:+ source +:+ NL);;
      Printf ("Current version: " +:+ currentVersion +:+ NL);;
      printLatest latestVersion
  end.

(** One turn of the loop over [providerMap]. *)
Definition reportProvider (entry : string * string) : IO unit :=
  let '(source, currentVersion) := entry in
  '(latestVersion, err) ← getLatestProviderVersion source;
  match err with
  | Some e =>
      Printf ("Error fetching latest version for provider " +:+ source
                +:+ ": " +:+ Error e +:+ NL)
  | None =>
      Printf ("Provider source: " +:+ source +:+ NL);;
      Printf ("Current version: " +:+ currentVersion +:+ NL);;
      printLatest latestVersion
  end.

(** A [for ... range] loop over the entries in the order the run-time
    picks. *)
Fixpoint forRange {A} (turn : A → IO unit) (entries : list A) : IO unit :=
  match entries with
  | [] => mret ()
  | entry :: entries' => turn entry;; forRange turn entries'
  end.

Definition report (modules providers : list (string * string)) : IO unit :=
  forRange reportModule modules;;
  forRange reportProvider providers.

(** [main] after [createNewCliApp] has returned an existing root path.
    [range] stands for the order in which Go iterates over a map, which
    the language leaves open. *)
Definition main (range : gmap string string → list (string * string))
    (files : list file) : IO unit :=
  let '(m, err) := walk files (Maps ∅ ∅) in
  match err with
  | Some e => Printf ("Error: " +:+ Error e +:+ NL)
  | None => report (range (moduleMap m)) (range (providerMap m))
  end.
End client.

(** ** A model of the semver package *)

(** Three-way comparisons put together: first difference wins. *)

Definition lexc (c1 c2 : comparison) : comparison :=
  match c1 with Eq => c2 | _ => c1 end.

Fixpoint list_compare {A} (cmp : A → A → comparison) (l1 l2 : list A)
  : comparison :=
  match l1, l2 with
  | [], [] => Eq
  | [], _ :: _ => Lt
  | _ :: _, [] => Gt
  | a :: l1', b :: l2' => lexc (cmp a b) (list_compare cmp l1' l2')
  end.

Definition sum_compare {A B} (cmpA : A → A → comparison)
    (cmpB : B → B → comparison) (x y : A + B) : comparison :=
  match x, y with
  | inl a, inl b => cmpA a b
  | inl _, inr _ => Lt
  | inr _, inl _ => Gt
  | inr a, inr b => cmpB a b
  end.

(** Modelled from the spec: the package [github.com/Masterminds/semver/v3]
    is imported by [tfridge.go] and is not part of the repository.  The spec
    asks for strings parseable as valid semantic versions, ordered by major,
    then minor, then patch, then pre-release precedence by the standard
    rules; [NewVersion] below accepts what the package's lenient parser
    accepts (an optional leading v, one to three numeric segments, an
    optional pre-release after a hyphen and optional build metadata after a
    plus sign) and [Version_String] prints the three segments in full. *)
Module Semver.

Record Version := {
  major : N; minor : N; patch : N;
  pre : string; metadata : string; original : string }.

Definition is_digit (c : ascii) : bool :=
  let n := nat_of_ascii c in (48 <=? n)%nat && (n <=? 57)%nat.

Definition is_letter (c : ascii) : bool :=
  let n := nat_of_ascii c in
  ((65 <=? n)%nat && (n <=? 90)%nat) || ((97 <=? n)%nat && (n <=? 122)%nat).

(** The characters of a pre-release or metadata identifier. *)
Definition is_allowed (c : ascii) : bool :=
  is_digit c || is_letter c || Ascii.eqb c "-".

Fixpoint all_chars (p : ascii → bool) (s : string) : bool :=
  match s with
  | EmptyString => true
  | String c s' => p c && all_chars p s'
  end.

(** The longest prefix of [s] made of characters in [p], and the rest. *)
Fixpoint span (p : ascii → bool) (s : string) : string * string :=
  match s with
  | String c s' =>
      if p c then let '(a, b) := span p s' in (String c a, b)
      else (EmptyString, s)
  | EmptyString => (EmptyString, EmptyString)
  end.

(** The value of a string of decimal digits, most significant first. *)
Fixpoint digits_value (acc : N) (s : string) : N :=
  match s with
  | EmptyString => acc
  | String c s' =>
      digits_value (10 * acc + (N_of_ascii c - 48))%N s'
  end.

(** [strconv.ParseUint(s, 10, 64)]. *)
Definition ParseUint (s : string) : option N :=
  if negb (String.eqb s "") && all_chars is_digit s
     && (digits_value 0 s <? 2 ^ 64)%N
  then Some (digits_value 0 s) else None.

(** A numeric segment at the head of [s]. *)
Definition segment (s : string) : option (N * string) :=
  let '(ds, rest) := span is_digit s in
  n ← ParseUint ds; Some (n, rest).

(** [s] without its first character when that is [c]. *)
Definition cut (c : ascii) (s : string) : option string :=
  match s with
  | String c' s' => if Ascii.eqb c' c then Some s' else None
  | EmptyString => None
  end.

(** An optional group of a dot and digits: absent when [s] does not start
    with a dot. *)
Definition dot_segment (s : string) : option (N * string) :=
  match cut "." s with
  | Some s' => segment s'
  | None => Some (0%N, s)
  end.

(** Dot-separated non-empty identifiers of allowed characters. *)
Definition identifiers_ok (s : string) : bool :=
  forallb (λ part, negb (String.eqb part "") && all_chars is_allowed part)
          (Split s ".").

(** A numeric pre-release identifier has no leading zero. *)
Definition prerelease_ok (s : string) : bool :=
  identifiers_ok s &&
  forallb (λ part,
             negb (all_chars is_digit part
                   && (1 <? String.length part)%nat
                   && HasPrefix part "0"))
          (Split s ".").

(** The end of the string: nothing, or a plus sign and the metadata. *)
Definition metadata_tail (s : string) : option string :=
  if String.eqb s "" then Some ""
  else match cut "+" s with
       | Some m => if identifiers_ok m then Some m else None
       | None => None
       end.

(** The tail after the numeric segments: an optional hyphen and
    pre-release, then the optional metadata, up to the end. *)
Definition tail (s : string) : option (string * string) :=
  match cut "-" s with
  | Some s' =>
      let '(p, rest) := span (λ c, negb (Ascii.eqb c "+")) s' in
      if prerelease_ok p then m ← metadata_tail rest; Some (p, m) else None
  | None => m ← metadata_tail s; Some ("", m)
  end.

Definition NewVersion (v : string) : option Version :=
  let s := default v (cut "v" v) in
  '(ma, s) ← segment s;
  '(mi, s) ← dot_segment s;
  '(pa, s) ← dot_segment s;
  '(p, m) ← tail s;
  Some {| major := ma; minor := mi; patch := pa;
          pre := p; metadata := m; original := v |}.

Definition Utoa (n : N) : string := NilEmpty.string_of_uint (N.to_uint n).

Definition Version_String (v : Version) : string :=
  Utoa (major v) +:+ "." +:+ Utoa (minor v) +:+ "." +:+ Utoa (patch v)
    +:+ (if String.eqb (pre v) "" then "" else "-" +:+ pre v)
    +:+ (if String.eqb (metadata v) "" then "" else "+" +:+ metadata v).

Definition bytes (s : string) : list N := N_of_ascii <$> list_ascii_of_string s.

(** A pre-release identifier: numeric ones are compared as numbers and
    sort before the others, which are compared as byte strings. *)
Definition identifier (part : string) : N + list N :=
  if negb (String.eqb part "") && all_chars is_digit part
  then inl (digits_value 0 part) else inr (bytes part).

Definition comparePrerelease (v o : string) : comparison :=
  list_compare (sum_compare N.compare (list_compare N.compare))
    (identifier <$> Split v ".") (identifier <$> Split o ".").

(** Major, then minor, then patch; then a version without pre-release is
    above one with, and two pre-releases are compared field by field.
    Build metadata takes no part. *)
Definition Compare (v o : Version) : comparison :=
  lexc (N.compare (major v) (major o))
    (lexc (N.compare (minor v) (minor o))
       (lexc (N.compare (patch v) (patch o))
          (match String.eqb (pre v) "", String.eqb (pre o) "" with
           | true, true => Eq
           | true, false => Gt
           | false, true => Lt
           | false, false => comparePrerelease (pre v) (pre o)
           end))).

End Semver.

#[export] Instance Masterminds : SemverPkg := {|
  Version := Semver.Version;
  NewVersion := Semver.NewVersion;
  Compare := Semver.Compare;
  Version_String := Semver.Version_String;
|}.

(** ** A sort to run the examples with: insertion sort *)

Fixpoint insert_by {A} (less : A → A → bool) (x : A) (l : list A) : list A :=
  match l with
  | [] => [x]
  | y :: l' => if less y x then y :: insert_by less x l' else x :: l
  end.

Definition insertion_sort {A} (less : A → A → bool) (l : list A) : list A :=
  foldr (insert_by less) [] l.

#[export] Instance InsertionSort : Sorter := {| sort_Slice := @insertion_sort |}.

(** * Vocabulary of the statements *)

(** ** Blocks and declarations *)

(** The pattern has a capture group that cannot match the empty text. *)
Definition has_capture (re : regex) : bool :=
  existsb (λ a, grp a && match rep a with Star => false | _ => true end) re.

(** The group captured on one line, if the line matches. *)
Definition capture (re : regex) (line : string) : option string :=
  snd <$> FindStringSubmatch re line.

(** The group captured by the last matching line. *)
Definition lastCapture (re : regex) (lines : list string) : option string :=
  last (omap (capture re) lines).

(** [body] is what the inner loop reads after an opener when [rest] follows:
    lines other than a bare closing brace, then the closing brace; or, the
    brace missing, everything up to the end of the file. *)
Definition blockBody (body rest : list string) : Prop :=
  (∃ inside, body = inside ++ ["}"] ∧ "}" ∉ inside)
  ∨ (("}" ∉ body) ∧ rest = []).

(** A dependency declaration, tagged. *)
Inductive decl :=
  | ModuleDecl (source version : string)
  | ProviderDecl (provider version : string).

Definition applyDecl (m : maps) (d : decl) : maps :=
  match d with
  | ModuleDecl source version =>
      Maps (<[source := version]> (moduleMap m)) (providerMap m)
  | ProviderDecl provider version =>
      Maps (moduleMap m) (<[provider := version]> (providerMap m))
  end.

Definition moduleDecl (source version : string) : list decl :=
  if String.eqb source "" then [] else [ModuleDecl source version].

Definition providerDecl (line : string) : list decl :=
  let provider := default "" (capture providerRegex line) in
  let version := default "" (capture versionRegex line) in
  if String.eqb provider "" then [] else [ProviderDecl provider version].

(** The declarations one file gives rise to, in the order the scan meets
    them: the loop of [scanLines] with the map updates listed instead of
    performed. *)
Fixpoint declarations (lines : list string) : list decl :=
  match lines with
  | [] => []
  | line :: rest =>
      if MatchString moduleRegex line then
        (fix inner (source version : string) (ls : list string) : list decl :=
           match ls with
           | [] => moduleDecl source version
           | l :: ls' =>
               let source := default source (capture sourceRegex l) in
               let version := default version (capture versionRegex l) in
               if String.eqb l "}"
               then moduleDecl source version ++ declarations ls'
               else inner source version ls'
           end) "" "" rest
      else if MatchString providerRegex line then
        providerDecl line ++ declarations rest
      else declarations rest
  end.

Definition fileDecls (f : file) : list decl :=
  match f with
  | OpenFails _ => []
  | Scanned lines _ => declarations lines
  end.

Definition fileErr (f : file) : option error :=
  match f with
  | OpenFails e => Some e
  | Scanned _ scanErr => scanErr
  end.

(** The declarations of a whole run: file after file, up to and including
    the first file that ends in an error. *)
Fixpoint runDecls (files : list file) : list decl :=
  match files with
  | [] => []
  | f :: files' =>
      fileDecls f ++ match fileErr f with
                     | Some _ => []
                     | None => runDecls files'
                     end
  end.

Definition moduleDecls (ds : list decl) : list (string * string) :=
  omap (λ d, match d with
             | ModuleDecl source version => Some (source, version)
             | ProviderDecl _ _ => None
             end) ds.

Definition providerDecls (ds : list decl) : list (string * string) :=
  omap (λ d, match d with
             | ProviderDecl provider version => Some (provider, version)
             | ModuleDecl _ _ => None
             end) ds.

(** [m[k] = v]. *)
Definition assign (m : gmap string string) (kv : string * string)
  : gmap string string := <[kv.1 := kv.2]> m.

(** ** Slashes *)

(** [strings.Count] for a single character. *)
Fixpoint count_char (c : ascii) (s : string) : nat :=
  match s with
  | EmptyString => 0
  | String c' s' => (if Ascii.eqb c' c then 1 else 0) + count_char c s'
  end.

(** [strings.Contains]. *)
Fixpoint Contains (s substr : string) : bool :=
  HasPrefix s substr ||
  match s with
  | String _ s' => Contains s' substr
  | EmptyString => false
  end.

(** The identifier a provider is looked up under, in the words of the spec:
    unchanged with exactly one slash, under the default namespace with
    none, and no identifier at all otherwise. *)
Definition normalize (providerSource : string) : option string :=
  match count_char "/" providerSource with
  | 0%nat => Some ("hashicorp/" +:+ providerSource)
  | 1%nat => Some providerSource
  | _ => None
  end.

(** ** Registry answers *)

(** The world after one more request. *)
Definition sent (w : World) (url : string) : World :=
  {| requests := requests w ++ [url]; stdout := stdout w |}.

(** What is left of a registry answer once the status and the body have
    been checked: the error to return, or the list of versions. *)
Definition checked (statusError : Z → error) (resp : response)
  : error + list string :=
  match resp with
  | GetFails e => inl (GetError e)
  | Response StatusCode Body =>
      if negb (StatusCode =? StatusOK) then inl (statusError StatusCode)
      else match Body with
           | Malformed e => inl (DecodeError e)
           | Versions versions => inr versions
           end
  end.





(** ** The order and the printed form of the semver model *)

(** A three-way comparison that orders its type, up to equivalence. *)
Record Lawful {A} (cmp : A → A → comparison) : Prop := {
  law_antisym : ∀ a b, cmp b a = CompOpp (cmp a b);
  law_lt_trans : ∀ a b c, cmp a b = Lt → cmp b c = Lt → cmp a c = Lt;
  law_eq_compat : ∀ a b c, cmp a b = Eq → cmp a c = cmp b c;
}.

(** What [Semver.Compare] compares: the three segments and the pre-release,
    a version without one ranking above all that have one. *)
Definition prereleaseKey (pre : string) : list (N + list N) + unit :=
  if String.eqb pre "" then inr ()
  else inl (Semver.identifier <$> Split pre ".").

Definition pair_compare {A B} (cmpA : A → A → comparison)
    (cmpB : B → B → comparison) (x y : A * B) : comparison :=
  lexc (cmpA x.1 y.1) (cmpB x.2 y.2).

Definition keyCompare :
  N * (N * (N * (list (N + list N) + unit))) →
  N * (N * (N * (list (N + list N) + unit))) → comparison :=
  pair_compare N.compare
    (pair_compare N.compare
       (pair_compare N.compare
          (sum_compare
             (list_compare (sum_compare N.compare (list_compare N.compare)))
             (λ _ _, Eq)))).

Definition versionKey (v : Semver.Version)
  : N * (N * (N * (list (N + list N) + unit))) :=
  (Semver.major v, (Semver.minor v, (Semver.patch v,
     prereleaseKey (Semver.pre v)))).

(** [b] does not start with a character of the class [p]. *)
Definition stops (p : ascii → bool) (b : string) : Prop :=
  match b with
  | String c _ => p c = false
  | EmptyString => True
  end.

(** The text [Version_String] puts after the three segments. *)
Definition suffix (pre metadata : string) : string :=
  (if String.eqb pre "" then "" else "-" +:+ pre)
    +:+ (if String.eqb metadata "" then "" else "+" +:+ metadata).

(** ** Inputs for the examples *)

(** The block of the spec's example, one item per line, and the same text
    on a single line. *)
Definition exampleBlock : list string :=
  [ "module " +:+ quoted "x" +:+ " {";
    "  source = " +:+ quoted "org/mod/provider";
    "  version = " +:+ quoted "1.2.0";
    "}" ].




(** The two empty maps [main] starts from. *)
Definition noMaps : maps := Maps ∅ ∅.

(** Nothing requested, nothing printed. *)
Definition start : World := {| requests := []; stdout := [] |}.

(** A registry that gives every request the same list of versions. *)
Definition always (versions : list string) : registry :=
  λ _ _, Response StatusOK (Versions versions).

(** A registry that knows one module and one provider and has nothing under
    any other address. *)
Definition smallRegistry : registry := λ _ url,
  if String.eqb url (moduleURL "org/net/aws")
  then Response StatusOK (Versions ["1.0.0"; "2.1.0"; "1.9.9"])
  else if String.eqb url (providerURL "hashicorp/aws")
  then Response StatusOK (Versions ["5.0.0"; "4.67.0"])
  else Response 404 (Malformed "unexpected end of JSON input").

(** ** What the maps hold *)

(** Every character of [s] is in the class [p]. *)
Fixpoint chars_all (p : ascii → bool) (s : string) : bool :=
  match s with
  | EmptyString => true
  | String c s' => p c && chars_all p s'
  end.

Definition noQuote (s : string) : Prop :=
  chars_all (λ c, negb (is_quote c)) s = true.

(** The characters a capture group of [re] can take are all in [p]. *)
Definition group_in (p : ascii → bool) (re : regex) : Prop :=
  Forall (λ a, grp a = true → ∀ c, cls a c = true → p c = true) re.

(** A key with its value as the scan writes them: the key is not empty and
    neither holds a quote. *)
Definition entryOk (k v : string) : Prop := k ≠ "" ∧ noQuote k ∧ noQuote v.

Definition declOk (d : decl) : Prop :=
  match d with
  | ModuleDecl k v | ProviderDecl k v => entryOk k v
  end.

Definition mapsOk (m : maps) : Prop :=
  map_Forall entryOk (moduleMap m) ∧ map_Forall entryOk (providerMap m).

(** ** Requests and printed blocks of the report *)

(** The URL the turn of a module entry requests. *)
Definition moduleRequest (entry : string * string) : string :=
  moduleURL (default "" (head (Split entry.1 "//"))).

(** The URL the turn of a provider entry requests, if it requests one. *)
Definition providerRequest (entry : string * string) : option string :=
  providerURL <$> normalize entry.1.

(** What the turn of a module entry prints when it returns: the error line,
    or the three lines of the entry. *)
Definition moduleBlock (entry : string * string) (block : list string) : Prop :=
  (∃ e, block = ["Error fetching latest version for " +:+ entry.1 +:+ ": "
                   +:+ Error e +:+ NL])
  ∨ (∃ latest, block = ["Module source: " +:+ entry.1 +:+ NL;
                        "Current version: " +:+ entry.2 +:+ NL;
                        "Latest version: " +:+ latest +:+ NL +:+ NL]).

Definition providerBlock (entry : string * string) (block : list string)
  : Prop :=
  (∃ e, block = ["Error fetching latest version for provider " +:+ entry.1
                   +:+ ": " +:+ Error e +:+ NL])
  ∨ (∃ latest, block = ["Provider source: " +:+ entry.1 +:+ NL;
                        "Current version: " +:+ entry.2 +:+ NL;
                        "Latest version: " +:+ latest +:+ NL +:+ NL]).

(** ** The walk over the directory tree (lines 37-54) *)

(** [filepath.Ext]: from the end of the path back to the last separator,
    the suffix that begins at the first dot met; empty if there is none. *)
Fixpoint Ext_scan (reversed suffix : string) : string :=
  match reversed with
  | "" => ""
  | String c reversed' =>
      if Ascii.eqb c "/" then ""
      else if Ascii.eqb c "." then String c suffix
      else Ext_scan reversed' (String c suffix)
  end.

Definition Ext (path : string) : string := Ext_scan (String.rev path) "".

(** What the callback reads of an [os.FileInfo]. *)
Record FileInfo := { IsDir : bool; Name : string }.

(** What [filepath.Walk] meets at a path: [os.Lstat] fails; or something
    that is not a directory; or a directory, with the error of reading its
    names, if any, and its entries in the order they are listed. *)
#[local] Set Warnings "-register-all".
Inductive node :=
  | Unknown (path : string) (e : error)
  | Plain (path name : string)
  | Directory (path name : string) (readErr : option error)
      (entries : list node).

(** A non-nil result of the callback: the sentinel [filepath.SkipDir] or
    another error. *)
Inductive walkErr :=
  | SkipDir
  | Failure (e : error).

(** [filepath.WalkFunc], with the maps the closure shares with [main]. *)
Definition WalkFunc : Type :=
  string → option FileInfo → option error → maps → maps * option walkErr.

(** The loop of [walk] over the entries of a directory: a failed [Lstat]
    goes to the callback, [SkipDir] from a directory or from that call is
    dropped, [SkipDir] from anything else and every other error end the
    loop. *)
Definition walkEntries (walk1 : node → maps → maps * option walkErr)
  : list node → maps → maps * option walkErr :=
  fix each entries m :=
    match entries with
    | [] => (m, None)
    | entry :: entries' =>
        let '(m', err) := walk1 entry m in
        match err with
        | None => each entries' m'
        | Some SkipDir =>
            match entry with
            | Plain _ _ => (m', Some SkipDir)
            | _ => each entries' m'
            end
        | Some (Failure e) => (m', Some (Failure e))
        end
    end.

(** [filepath.walk], together with the call of the callback that its
    caller makes when [Lstat] has failed.  The names of a directory are
    read before the callback sees the directory. *)
Fixpoint filepath_walk (walkFn : WalkFunc) (n : node) (m : maps)
  : maps * option walkErr :=
  match n with
  | Unknown path e => walkFn path None (Some e) m
  | Plain path name =>
      walkFn path (Some {| IsDir := false; Name := name |}) None m
  | Directory path name readErr entries =>
      let '(m1, err1) :=
        walkFn path (Some {| IsDir := true; Name := name |}) readErr m in
      match readErr, err1 with
      | None, None => walkEntries (filepath_walk walkFn) entries m1
      | _, _ => (m1, err1)
      end
  end.

(** [filepath.Walk]: [SkipDir] at the root is no error. *)
Definition filepath_Walk (walkFn : WalkFunc) (root : node) (m : maps)
  : maps * option error :=
  let '(m', err) := filepath_walk walkFn root m in
  (m', match err with
       | Some (Failure e) => Some e
       | Some SkipDir | None => None
       end).

Section tree.
(** What [os.Open] and the scanner give for each path. *)
Variable Open : string → file.

(** The callback of lines 37-54.  [filepath.Walk] passes no [info] only
    together with an error. *)
Definition walkFn : WalkFunc := λ path info err m,
  match err, info with
  | Some e, _ => (m, Some (Failure e))
  | None, Some info =>
      if IsDir info && HasPrefix (Name info) "." then (m, Some SkipDir)
      else if negb (IsDir info) && String.eqb (Ext path) ".tf" then
        match extractModules (Open path) m with
        | (m', Some e) => (m', Some (Failure e))
        | (m', None) => (m', None)
        end
      else (m, None)
  | None, None => (m, None)
  end.

Context `{P : SemverPkg} `{S : Sorter}.
Variable reg : registry.

(** [main] on a directory tree: as [main] above, with the walk of the tree
    in the place of the walk of a list of files. *)
Definition main_tree (range : gmap string string → list (string * string))
    (root : node) : IO unit :=
  let '(m, err) := filepath_Walk walkFn root (Maps ∅ ∅) in
  match err with
  | Some e => Printf ("Error: " +:+ Error e +:+ NL)
  | None => report reg (range (moduleMap m)) (range (providerMap m))
  end.

(** The files the walk of a tree opens, in its order, had none an error;
    a failed [Lstat] and a directory that cannot be read stand in the list
    as a file that cannot be opened. *)
Fixpoint tfFiles (n : node) : list file :=
  match n with
  | Unknown _ e => [OpenFails e]
  | Plain path _ => if String.eqb (Ext path) ".tf" then [Open path] else []
  | Directory _ name readErr entries =>
      match readErr with
      | Some e => [OpenFails e]
      | None => if HasPrefix name "." then [] else flat_map tfFiles entries
      end
  end.
End tree.

(** A readable directory whose name begins with a dot. *)
Definition hidden (n : node) : bool :=
  match n with
  | Directory _ name None _ => HasPrefix name "."
  | _ => false
  end.

(** The tree without the contents of its directories whose name begins
    with a dot. *)
Fixpoint emptyHidden (n : node) : node :=
  match n with
  | Directory path name readErr entries =>
      Directory path name readErr
        (if HasPrefix name "." then [] else map emptyHidden entries)
  | _ => n
  end.

(** A small tree: a hidden directory, a file of another extension, and one
    Terraform file in a subdirectory. *)
Definition exampleTree : node :=
  Directory "infra" "infra" None
    [ Directory "infra/.terraform" ".terraform" None
        [Plain "infra/.terraform/cached.tf" "cached.tf"];
      Plain "infra/main.tf.json" "main.tf.json";
      Directory "infra/net" "net" None [Plain "infra/net/main.tf" "main.tf"] ].

Definition exampleOpen : string → file := λ path,
  if String.eqb path "infra/net/main.tf" then Scanned exampleBlock None
  else OpenFails (FileError "permission denied").

(** As [exampleOpen] on the paths with the extension of Terraform files,
    readable elsewhere. *)
Definition exampleOpen' : string → file := λ path,
  if String.eqb (Ext path) ".tf" then exampleOpen path
  else Scanned ["provider " +:+ quoted "aws" +:+ " {"] None.

(** ** Assignments as they are usually written *)

(** The number of quote characters, of either kind, on a line. *)
Fixpoint quotes (s : string) : nat :=
  match s with
  | EmptyString => 0
  | String c s' => (if is_quote c then 1 else 0) + quotes s'
  end.

Definition spaces (s : string) : Prop := chars_all is_space s = true.

(** How an assignment is laid out on its line: the white space before the
    key and around the equals sign, the two quote characters, and what
    follows the closing quote. *)
Record layout := Layout {
  indent : string;
  beforeEq : string;
  afterEq : string;
  openQuote : ascii;
  closeQuote : ascii;
  trailing : string }.

Definition assignment (l : layout) (key value : string) : string :=
  indent l +:+ key +:+ beforeEq l +:+ "=" +:+ afterEq l
    +:+ String (openQuote l) (value +:+ String (closeQuote l) (trailing l)).

Definition wellLaid (l : layout) : Prop :=
  spaces (indent l) ∧ spaces (beforeEq l) ∧ spaces (afterEq l)
  ∧ is_quote (openQuote l) = true ∧ is_quote (closeQuote l) = true
  ∧ noQuote (trailing l).

Definition exampleLayout : layout :=
  {| indent := "  "; beforeEq := " "; afterEq := " ";
     openQuote := SQ; closeQuote := DQ; trailing := " # pinned" |}.

(** The line that opens a module block, as it is usually written, with
    anything before the keyword and after the brace. *)
Definition moduleOpener (before sp1 name sp2 after : string) : string :=
  before +:+ "module" +:+ sp1
    +:+ String DQ (name +:+ String DQ (sp2 +:+ "{" +:+ after)).

(** The line that opens a provider block, as it is usually written. *)
Definition providerOpener (l : layout) (name : string) : string :=
  indent l +:+ "provider" +:+ beforeEq l
    +:+ String (openQuote l) (name +:+ String (closeQuote l) (trailing l)).

Definition noDQ (s : string) : Prop :=
  chars_all (λ c, negb (Ascii.eqb c DQ)) s = true.

(** The error of an entry of the tree that cannot be examined or listed. *)
Definition unreadable (n : node) : option error :=
  match n with
  | Unknown _ e => Some e
  | Directory _ _ readErr _ => readErr
  | Plain _ _ => None
  end.

(** * Properties *)

(** Case analysis on the registry's answer in [H], leaving the status equal
    to 200 where the answer carries versions. *)
Ltac case_response H :=
  match type of H with
  | context [checked _ (?reg ?h ?url)] =>
      let Hr := fresh "Hr" in
      let Hc := fresh "Hc" in
      destruct (reg h url) as [?e|?code [?e|?versions]] eqn:Hr;
      cbn [checked] in H;
      try (destruct (negb (_ =? StatusOK)) eqn:Hc; cbn beta iota in H;
           [|apply negb_false_iff, Z.eqb_eq in Hc; subst])
  end.

(** ** The matcher: a captured group is never empty *)

Lemma consume_group_nonempty a c r : r.2 ≠ "" → (consume a c r).2 ≠ "".
Proof. unfold consume; simpl. by destruct (grp a). Qed.

Lemma star_group_nonempty a k s r :
  (∀ s' r', k s' = Some r' → r'.2 ≠ "") →
  star a k s = Some r → r.2 ≠ "".
Proof.
  intros Hk. revert r. induction s as [|c s IH]; simpl; intros r; [by apply Hk|].
  destruct (cls a c); [|by apply Hk].
  destruct (star a k s) as [r'|] eqn:E; [|by apply Hk].
  intros [= <-]. apply consume_group_nonempty. by apply IH.
Qed.

Lemma match_here_group_nonempty re s r :
  has_capture re = true → match_here re s = Some r → r.2 ≠ "".
Proof.
  revert s r. induction re as [|a re IH]; [done|]. intros s r Hc. simpl in Hc.
  apply orb_true_iff in Hc as [Ha|Hre].
  - apply andb_true_iff in Ha as [Hg Hrep]. simpl.
    destruct (rep a); [|done|]; (destruct s as [|c s]; [done|]);
      (destruct (cls a c); [|done]); intros (r' & _ & ->)%fmap_Some;
      unfold consume; rewrite Hg; done.
  - specialize (λ s r, IH s r Hre). simpl.
    destruct (rep a).
    + destruct s as [|c s]; [done|]. destruct (cls a c); [|done].
      intros (r' & Hr' & ->)%fmap_Some.
      apply consume_group_nonempty; eauto.
    + apply star_group_nonempty; eauto.
    + destruct s as [|c s]; [done|]. destruct (cls a c); [|done].
      intros (r' & Hr' & ->)%fmap_Some.
      apply consume_group_nonempty. revert Hr'.
      apply star_group_nonempty; eauto.
Qed.

Lemma FindStringSubmatch_group_nonempty re s r :
  has_capture re = true → FindStringSubmatch re s = Some r → r.2 ≠ "".
Proof.
  intros Hc. induction s as [|c s IH]; simpl.
  - destruct (match_here re "") eqn:E; [|done].
    intros [= <-]. by eapply match_here_group_nonempty.
  - destruct (match_here re (String c s)) eqn:E; [|done].
    intros [= <-]. by eapply match_here_group_nonempty.
Qed.

(** ** Module blocks *)

Lemma scanLines_module line rest m :
  MatchString moduleRegex line = true →
  scanLines (line :: rest) m =
    let '(source, version, rest') := moduleBody "" "" rest in
    scanLines rest' (emitModule source version m).
Proof.
  intros Hm. simpl. rewrite Hm.
  match goal with
  | |- ?inner _ _ rest = _ =>
      enough (∀ source version, inner source version rest =
                let '(source', version', rest') :=
                  moduleBody source version rest in
                scanLines rest' (emitModule source' version' m)) as H
        by apply H
  end.
  induction rest as [|l ls IH]; intros; simpl; [done|].
  destruct (String.eqb l "}"); [done|]. apply IH.
Qed.

Lemma capture_nonempty re line x :
  has_capture re = true → capture re line = Some x → x ≠ "".
Proof.
  intros Hc (r & Hr & ->)%fmap_Some. by eapply FindStringSubmatch_group_nonempty.
Qed.

Lemma lastCapture_cons re line lines d :
  default d (lastCapture re (line :: lines)) =
  default (default d (capture re line)) (lastCapture re lines).
Proof.
  unfold lastCapture.
  assert (omap (capture re) (line :: lines) =
            match capture re line with
            | Some x => x :: omap (capture re) lines
            | None => omap (capture re) lines
            end) as -> by reflexivity.
  destruct (capture re line) as [x|]; [|done].
  rewrite last_cons. by destruct (last (omap (capture re) lines)).
Qed.

Lemma lastCapture_nonempty re lines x :
  has_capture re = true → lastCapture re lines = Some x → x ≠ "".
Proof.
  intros Hc Hl. apply last_Some in Hl as [l' Hl].
  assert (x ∈ omap (capture re) lines) as Hx by (rewrite Hl; set_solver).
  apply list_elem_of_omap in Hx as (line & _ & Hx). by eapply capture_nonempty.
Qed.

Lemma moduleBody_step source version line rest :
  moduleBody source version (line :: rest) =
    let source' := default source (capture sourceRegex line) in
    let version' := default version (capture versionRegex line) in
    if String.eqb line "}" then (source', version', rest)
    else moduleBody source' version' rest.
Proof.
  simpl. unfold capture.
  by destruct (FindStringSubmatch sourceRegex line),
              (FindStringSubmatch versionRegex line).
Qed.

Lemma moduleBody_spec body rest source version :
  blockBody body rest →
  moduleBody source version (body ++ rest) =
    (default source (lastCapture sourceRegex body),
     default version (lastCapture versionRegex body), rest).
Proof.
  revert source version.
  induction body as [|line body IH]; intros source version Hb.
  - destruct Hb as [(inside & Hnil & _)|[_ ->]]; [by destruct inside|done].
  - rewrite <-app_comm_cons, moduleBody_step. cbv zeta.
    rewrite !lastCapture_cons.
    destruct (String.eqb line "}") eqn:E.
    + apply String.eqb_eq in E as ->.
      destruct Hb as [(inside & Hb & Hin)|[Hin _]]; [|set_solver].
      destruct inside as [|l inside]; simplify_eq/=; [done|set_solver].
    + apply String.eqb_neq in E. apply IH.
      destruct Hb as [(inside & Hb & Hin)|[Hin ->]].
      * destruct inside as [|l inside]; simplify_eq/=.
        left. exists inside. set_solver.
      * right. set_solver.
Qed.

Lemma module_block_emits opener body rest m :
  MatchString moduleRegex opener = true →
  blockBody body rest →
  scanLines (opener :: body ++ rest) m =
    scanLines rest
      match lastCapture sourceRegex body with
      | Some source =>
          Maps (<[source := default "" (lastCapture versionRegex body)]>
                  (moduleMap m)) (providerMap m)
      | None => m
      end.
Proof.
  intros Hm Hb. rewrite scanLines_module by done.
  rewrite moduleBody_spec by done. f_equal.
  destruct (lastCapture sourceRegex body) as [source|] eqn:E; simpl; [|done].
  unfold emitModule.
  apply lastCapture_nonempty, String.eqb_neq in E as ->; done.
Qed.


(** ** Declarations and the accumulated maps *)

Lemma emitModule_decl source version m :
  emitModule source version m = foldl applyDecl m (moduleDecl source version).
Proof. unfold emitModule, moduleDecl. by destruct (String.eqb source ""). Qed.

Lemma emitProvider_decl line m :
  emitProvider line m = foldl applyDecl m (providerDecl line).
Proof.
  unfold emitProvider, providerDecl, capture.
  destruct (FindStringSubmatch providerRegex line) as [r|]; simpl;
    destruct (FindStringSubmatch versionRegex line) as [r'|]; simpl;
    try done; by destruct (String.eqb r.2 "").
Qed.

Lemma declarations_module line rest :
  MatchString moduleRegex line = true →
  declarations (line :: rest) =
    let '(source, version, rest') := moduleBody "" "" rest in
    moduleDecl source version ++ declarations rest'.
Proof.
  intros Hm. simpl. rewrite Hm.
  match goal with
  | |- ?inner _ _ rest = _ =>
      enough (∀ source version, inner source version rest =
                let '(source', version', rest') :=
                  moduleBody source version rest in
                moduleDecl source' version' ++ declarations rest') as H
        by apply H
  end.
  induction rest as [|l ls IH]; intros.
  - simpl. by rewrite app_nil_r.
  - rewrite moduleBody_step. cbv zeta.
    destruct (String.eqb l "}"); [done|]. apply IH.
Qed.

Lemma moduleBody_rest_length source version lines :
  (length (moduleBody source version lines).2 ≤ length lines)%nat.
Proof.
  revert source version; induction lines as [|l ls IH]; intros; [done|].
  rewrite moduleBody_step. cbv zeta. destruct (String.eqb l "}"); simpl; [lia|].
  etransitivity; [apply IH|lia].
Qed.

Lemma scanLines_declarations lines m :
  scanLines lines m = foldl applyDecl m (declarations lines).
Proof.
  remember (length lines) as n eqn:Hn. revert lines m Hn.
  induction n as [n IH] using lt_wf_ind. intros [|line rest] m Hn; [done|].
  destruct (MatchString moduleRegex line) eqn:Hm.
  - rewrite scanLines_module, declarations_module by done.
    pose proof (moduleBody_rest_length "" "" rest) as Hlen.
    destruct (moduleBody "" "" rest) as [[source version] rest'].
    rewrite foldl_app, <-emitModule_decl.
    eapply IH; [|done]. simpl in *. lia.
  - simpl. rewrite Hm. destruct (MatchString providerRegex line).
    + rewrite foldl_app, <-emitProvider_decl. eapply IH; [|done]. simpl in *. lia.
    + eapply IH; [|done]. simpl in *. lia.
Qed.

Lemma walk_runDecls files m :
  (walk files m).1 = foldl applyDecl m (runDecls files).
Proof.
  revert m. induction files as [|f files IH]; intros m; [done|].
  simpl. rewrite foldl_app.
  destruct f as [e|lines [e|]]; simpl; rewrite ?app_nil_r;
    rewrite <-?scanLines_declarations; done.
Qed.

Lemma moduleMap_foldl ds m :
  moduleMap (foldl applyDecl m ds) = foldl assign (moduleMap m) (moduleDecls ds).
Proof. revert m. induction ds as [|[] ds IH]; intros m; simpl; by rewrite ?IH. Qed.

Lemma providerMap_foldl ds m :
  providerMap (foldl applyDecl m ds) =
    foldl assign (providerMap m) (providerDecls ds).
Proof. revert m. induction ds as [|[] ds IH]; intros m; simpl; by rewrite ?IH. Qed.

(** Assignments to other keys leave a key alone, and the last assignment to
    a key decides its value. *)
Lemma foldl_assign_other (kvs : list (string * string)) m k :
  k ∉ kvs.*1 → foldl assign m kvs !! k = m !! k.
Proof.
  revert m. induction kvs as [|[k' v'] kvs IH]; intros m Hk; [done|].
  simpl in Hk. apply not_elem_of_cons in Hk as [Hne Hk].
  simpl. rewrite IH by done. unfold assign; simpl.
  by apply lookup_insert_ne.
Qed.

Lemma foldl_assign_last (before after : list (string * string)) m k v :
  k ∉ after.*1 → foldl assign m (before ++ (k, v) :: after) !! k = Some v.
Proof.
  intros Hk. rewrite foldl_app. simpl. rewrite foldl_assign_other by done.
  unfold assign; simpl. apply lookup_insert_eq.
Qed.

(** ** Claims about the extractor *)

(** C2.  For every module block (the opener line, then the lines up to and
    including the first line that is exactly a closing brace, or up to the
    end of the file) the scan records the declaration made of the last
    source and the last version captured on the lines after the opener, the
    version being empty when none was captured, and records nothing when no
    line of the block assigns a source.  The example block of the spec, with
    the opener, the source, the version and the closing brace each on a
    line, yields the pair org/mod/provider, 1.2.0. *)
Theorem C2_module_block_declaration :
  (∀ opener body rest m,
     MatchString moduleRegex opener = true →
     blockBody body rest →
     scanLines (opener :: body ++ rest) m =
       scanLines rest
         match lastCapture sourceRegex body with
         | Some source =>
             Maps (<[source := default "" (lastCapture versionRegex body)]>
                     (moduleMap m)) (providerMap m)
         | None => m
         end)
  ∧ scanLines exampleBlock noMaps = Maps {[ "org/mod/provider" := "1.2.0" ]} ∅.
Proof.
  split; [apply module_block_emits|].
  change exampleBlock with
    (("module " +:+ quoted "x" +:+ " {")
       :: [ "  source = " +:+ quoted "org/mod/provider";
            "  version = " +:+ quoted "1.2.0"; "}" ] ++ []).
  rewrite module_block_emits; [by vm_compute| by vm_compute |].
  left. eexists [_; _]. split; [done|]. vm_compute.
  intros H. repeat (apply elem_of_cons in H as [[=]|H]). by apply elem_of_nil in H.
Qed.

(** C2, an instance: a block whose version line is missing, followed by a
    provider line. *)
Lemma C2_module_block_declaration_witness :
  scanLines
    ([ "module " +:+ quoted "vpc" +:+ " {" ]
       ++ [ "  source = 'terraform-aws-modules/vpc/aws'"; "}" ]
       ++ [ "provider 'aws'" ]) noMaps
  = scanLines [ "provider 'aws'" ]
      (Maps (<["terraform-aws-modules/vpc/aws" := ""]> ∅) ∅).
Proof.
  apply (proj1 C2_module_block_declaration
           ("module " +:+ quoted "vpc" +:+ " {")
           [ "  source = 'terraform-aws-modules/vpc/aws'"; "}" ]
           [ "provider 'aws'" ] noMaps).
  - vm_compute. reflexivity.
  - left. exists [ "  source = 'terraform-aws-modules/vpc/aws'" ].
    split; [reflexivity|].
    intros H. apply elem_of_cons in H as [H|H]; [discriminate H|].
    exact (proj1 (elem_of_nil _) H).
Defined.




(** C8.  Over a whole run, starting from the two empty maps of [main], each
    map holds for every identifier the version of the last declaration with
    that identifier in the sequence of declarations the run extracted, and
    holds nothing for an identifier that no declaration names. *)
Theorem C8_last_declaration_wins files k :
  let final := (walk files noMaps).1 in
  let modules := moduleDecls (runDecls files) in
  let providers := providerDecls (runDecls files) in
  (∀ before v after,
     modules = before ++ (k, v) :: after → k ∉ after.*1 →
     moduleMap final !! k = Some v)
  ∧ (k ∉ modules.*1 → moduleMap final !! k = None)
  ∧ (∀ before v after,
       providers = before ++ (k, v) :: after → k ∉ after.*1 →
       providerMap final !! k = Some v)
  ∧ (k ∉ providers.*1 → providerMap final !! k = None).
Proof.
  intros final modules providers. subst final modules providers.
  rewrite walk_runDecls, moduleMap_foldl, providerMap_foldl. simpl.
  repeat split.
  - intros before v after -> Hk. by apply foldl_assign_last.
  - intros Hk. by rewrite foldl_assign_other.
  - intros before v after -> Hk. by apply foldl_assign_last.
  - intros Hk. by rewrite foldl_assign_other.
Qed.

(** C8 on a run over two files that both declare the same module. *)
Lemma C8_last_declaration_wins_witness :
  moduleMap
    (walk [ Scanned [ "module " +:+ quoted "net" +:+ " {";
                      "  source = 'org/net/aws'"; "  version = '1.0.0'"; "}" ]
                    None;
            Scanned [ "module " +:+ quoted "net2" +:+ " {";
                      "  source = 'org/net/aws'"; "  version = '2.0.0'"; "}" ]
                    None ] noMaps).1 !! "org/net/aws" = Some "2.0.0".
Proof.
  refine (proj1 (C8_last_declaration_wins _ "org/net/aws")
            [("org/net/aws", "1.0.0")] "2.0.0" [] _ _).
  - vm_compute. reflexivity.
  - apply not_elem_of_nil.
Defined.

(** ** strings.Split and strings.Contains *)

Lemma Split_slash_length s :
  length (Split s "/") = S (count_char "/" s).
Proof.
  unfold Split. induction s as [|c s IH]; [done|].
  cbn [Split_go count_char HasPrefix]. rewrite Ascii.eqb_sym, andb_true_r.
  destruct (Ascii.eqb c "/").
  - simpl. by rewrite IH.
  - destruct (Split_go "/" 0 s); [done|]. simpl in *. lia.
Qed.

Lemma prefix_slashes c pre post :
  HasPrefix (String c (pre +:+ "/")) "//" =
  HasPrefix (String c (pre +:+ "//" +:+ post)) "//".
Proof. by destruct pre. Qed.

Lemma Contains_cons c s substr :
  Contains (String c s) substr =
    HasPrefix (String c s) substr || Contains s substr.
Proof. done. Qed.

Lemma Split_go_cons sep c s :
  Split_go sep 0 (String c s) =
    if HasPrefix (String c s) sep
    then "" :: Split_go sep (String.length sep - 1) s
    else match Split_go sep 0 s with
         | piece :: pieces => String c piece :: pieces
         | [] => [String c ""]
         end.
Proof. done. Qed.

Lemma Split_head_before pre post :
  Contains (pre +:+ "/") "//" = false →
  head (Split (pre +:+ "//" +:+ post) "//") = Some pre.
Proof.
  unfold Split. induction pre as [|c pre IH]; intros Hc; [done|].
  change (String c pre +:+ "/") with (String c (pre +:+ "/")) in Hc.
  rewrite Contains_cons in Hc. apply orb_false_iff in Hc as [Hp Hc].
  change (String c pre +:+ "//" +:+ post)
    with (String c (pre +:+ "//" +:+ post)).
  rewrite Split_go_cons, <-prefix_slashes, Hp. specialize (IH Hc).
  destruct (Split_go "//" 0 (pre +:+ "//" +:+ post)); by simplify_eq/=.
Qed.

Lemma Split_no_separator s :
  Contains s "//" = false → Split s "//" = [s].
Proof.
  unfold Split. induction s as [|c s IH]; intros Hc; [done|].
  rewrite Contains_cons in Hc. apply orb_false_iff in Hc as [Hp Hc].
  rewrite Split_go_cons, Hp, IH; done.
Qed.

Lemma Contains_first s :
  Contains s "//" = true →
  ∃ pre post, s = pre +:+ "//" +:+ post ∧ Contains (pre +:+ "/") "//" = false.
Proof.
  induction s as [|c s IH]; [done|].
  rewrite Contains_cons. destruct (HasPrefix (String c s) "//") eqn:Hp.
  - intros _. exists "", (match s with String _ post => post | _ => "" end).
    split; [|done].
    destruct s as [|c' s]; cbn [HasPrefix] in Hp;
      [by rewrite andb_false_r in Hp|].
    rewrite andb_true_r in Hp. apply andb_true_iff in Hp as [H1 H2].
    apply Ascii.eqb_eq in H1 as <-. by apply Ascii.eqb_eq in H2 as <-.
  - simpl. intros (pre & post & -> & Hc)%IH.
    exists (String c pre), post. split; [done|].
    change (String c pre +:+ "/") with (String c (pre +:+ "/")).
    by rewrite Contains_cons, prefix_slashes with (post := post), Hp.
Qed.

Lemma Contains_before pre :
  Contains (pre +:+ "/") "//" = false → Contains pre "//" = false.
Proof.
  induction pre as [|c pre IH]; [done|].
  change (String c pre +:+ "/") with (String c (pre +:+ "/")).
  rewrite !Contains_cons. intros [Hp Hc]%orb_false_iff.
  rewrite IH by done. rewrite orb_false_r.
  destruct pre as [|c' pre]; [cbn [HasPrefix]; by rewrite andb_false_r|done].
Qed.

(** ** The registry client *)

Section client_facts.
Context `{P : SemverPkg} `{S : Sorter}.
Variable reg : registry.

Lemma latest_world versions w : (latest versions w).2 = w.
Proof.
  unfold latest. case_bool_decide; [done|].
  by destruct (sort_Slice GreaterThan (validVersions versions)).
Qed.

Lemma getLatestVersion_checked moduleSource w :
  let url := moduleURL (default "" (head (Split moduleSource "//"))) in
  getLatestVersion reg moduleSource w =
    match checked ModuleStatusError (reg (requests w) url) with
    | inl e => (Returned ("", Some e), sent w url)
    | inr versions => latest versions (sent w url)
    end.
Proof.
  unfold getLatestVersion, checked, mbind, IO_bind, http_Get; simpl.
  destruct (reg _ _) as [e|code [e|versions]]; try done;
    by destruct (negb (code =? StatusOK)).
Qed.

Lemma getLatestProviderVersion_checked providerSource w :
  getLatestProviderVersion reg providerSource w =
    match normalize providerSource with
    | Some id =>
        match checked ProviderStatusError
                (reg (requests w) (providerURL id)) with
        | inl e => (Returned ("", Some e), sent w (providerURL id))
        | inr versions => latest versions (sent w (providerURL id))
        end
    | None => (Returned ("", Some (FormatError providerSource)), w)
    end.
Proof.
  unfold getLatestProviderVersion, normalize. rewrite Split_slash_length.
  destruct (count_char "/" providerSource) as [|[|n]]; simpl; try done;
    unfold checked, mbind, IO_bind, http_Get; simpl;
    (destruct (reg _ _) as [e|code [e|versions]]; try done;
     by destruct (negb (code =? StatusOK))).
Qed.

Lemma getLatestVersion_requests moduleSource w :
  requests (getLatestVersion reg moduleSource w).2 =
    requests w ++ [moduleURL (default "" (head (Split moduleSource "//")))].
Proof.
  rewrite getLatestVersion_checked. cbv zeta.
  destruct (checked _ _); [done|]. by rewrite latest_world.
Qed.

(** C5.  The module is looked up under the part of its source before the
    first double slash, and under the whole source when there is none: the
    request goes to that URL, and the call is the one for the part alone.
    A source with a double slash always has such a first part.  The
    example of the spec is looked up as org/mod. *)
Theorem C5_lookup_before_double_slash moduleSource w :
  (Contains moduleSource "//" = false →
     requests (getLatestVersion reg moduleSource w).2 =
       requests w ++ [moduleURL moduleSource])
  ∧ (∀ pre post,
       moduleSource = pre +:+ "//" +:+ post →
       Contains (pre +:+ "/") "//" = false →
       requests (getLatestVersion reg moduleSource w).2 =
         requests w ++ [moduleURL pre]
       ∧ getLatestVersion reg moduleSource w = getLatestVersion reg pre w)
  ∧ (Contains moduleSource "//" = true →
       ∃ pre post, moduleSource = pre +:+ "//" +:+ post
                   ∧ Contains (pre +:+ "/") "//" = false)
  ∧ requests (getLatestVersion reg "org/mod//subdir/submodule" w).2 =
      requests w ++ ["https://registry.terraform.io/v1/modules/org/mod"].
Proof.
  split_and!.
  - intros Hc. by rewrite getLatestVersion_requests, Split_no_separator.
  - intros pre post -> Hc.
    rewrite getLatestVersion_requests, !getLatestVersion_checked.
    rewrite Split_head_before by done.
    by rewrite (Split_no_separator pre) by by apply Contains_before.
  - apply Contains_first.
  - by rewrite getLatestVersion_requests.
Qed.

(** C4.  A provider source without a slash is looked up under
    hashicorp/, one with exactly one slash under itself, and the call
    returns the format error, having requested nothing, exactly when the
    source has two slashes or more.  So aws goes to hashicorp/aws,
    myorg/custom stays, and a/b/c is refused. *)
Theorem C4_provider_normalization providerSource w :
  let r := getLatestProviderVersion reg providerSource w in
  (count_char "/" providerSource = 0%nat →
     requests r.2 =
       requests w ++ [providerURL ("hashicorp/" +:+ providerSource)])
  ∧ (count_char "/" providerSource = 1%nat →
       requests r.2 = requests w ++ [providerURL providerSource])
  ∧ (r = (Returned ("", Some (FormatError providerSource)), w)
     ↔ (2 ≤ count_char "/" providerSource)%nat)
  ∧ (∀ s id, r.1 = Returned (s, Some (FormatError id)) →
             (2 ≤ count_char "/" providerSource)%nat)
  ∧ requests (getLatestProviderVersion reg "aws" w).2 =
      requests w ++ ["https://registry.terraform.io/v1/providers/hashicorp/aws"]
  ∧ requests (getLatestProviderVersion reg "myorg/custom" w).2 =
      requests w ++ ["https://registry.terraform.io/v1/providers/myorg/custom"]
  ∧ getLatestProviderVersion reg "a/b/c" w =
      (Returned ("", Some (FormatError "a/b/c")), w).
Proof.
  assert (∀ src id,
    normalize src = Some id →
    requests (getLatestProviderVersion reg src w).2 =
      requests w ++ [providerURL id]
    ∧ ∀ s id', (getLatestProviderVersion reg src w).1
               ≠ Returned (s, Some (FormatError id'))) as Hlookup.
  { intros src id Hn. rewrite getLatestProviderVersion_checked, Hn.
    destruct (reg _ _) as [e|code [e|versions]]; simpl;
      try (destruct (negb (code =? StatusOK)); simpl); try done.
    unfold latest. case_bool_decide; [done|].
    by destruct (sort_Slice GreaterThan (validVersions versions)). }
  intros r. subst r. split_and!.
  - intros Hc. apply Hlookup. unfold normalize. by rewrite Hc.
  - intros Hc. apply Hlookup. unfold normalize. by rewrite Hc.
  - destruct (normalize providerSource) as [id|] eqn:Hn.
    + destruct (Hlookup _ _ Hn) as [_ Hne]. split.
      * intros Hr. destruct (Hne "" providerSource). by rewrite Hr.
      * intros Hc. unfold normalize in Hn.
        by destruct (count_char "/" providerSource) as [|[|n]]; try lia.
    + rewrite getLatestProviderVersion_checked, Hn. split; [|done].
      intros _. unfold normalize in Hn.
      destruct (count_char "/" providerSource) as [|[|n]]; try done. lia.
  - intros s id Hr.
    destruct (normalize providerSource) as [id'|] eqn:Hn.
    + destruct (Hlookup _ _ Hn) as [_ Hne]. by destruct (Hne s id).
    + unfold normalize in Hn.
      destruct (count_char "/" providerSource) as [|[|n]]; try done. lia.
  - by apply Hlookup.
  - by apply Hlookup.
  - by rewrite getLatestProviderVersion_checked.
Qed.

(** C6.  When the registry answers with status 200 and an empty list of
    versions, both functions return the marker Not found and a nil
    error. *)
Theorem C6_empty_versions_not_found source w :
  (∀ url,
     url = moduleURL (default "" (head (Split source "//"))) →
     reg (requests w) url = Response StatusOK (Versions []) →
     getLatestVersion reg source w =
       (Returned ("Not found", None), sent w url))
  ∧ (∀ id url,
       normalize source = Some id → url = providerURL id →
       reg (requests w) url = Response StatusOK (Versions []) →
       getLatestProviderVersion reg source w =
         (Returned ("Not found", None), sent w url)).
Proof.
  split.
  - intros url -> Hr. rewrite getLatestVersion_checked. cbv zeta.
    by rewrite Hr.
  - intros id url Hn -> Hr. rewrite getLatestProviderVersion_checked, Hn.
    by rewrite Hr.
Qed.
End client_facts.

(** ** Orders: from [Compare] to the [less] of the sort *)

Lemma GreaterThan_StrictWeak `{SemverLaws} : StrictWeak GreaterThan.
Proof.
  assert (∀ a b, GreaterThan a b = false → GreaterThan b a = false →
                 Compare a b = Eq) as Heq.
  { unfold GreaterThan. intros a b Hab Hba.
    rewrite (Compare_antisym a b) in Hba. by destruct (Compare a b). }
  split.
  - intros a. unfold GreaterThan.
    pose proof (Compare_antisym a a). by destruct (Compare a a).
  - unfold GreaterThan. intros a b c Hab Hbc.
    assert (Compare c b = Lt) as H1.
    { rewrite (Compare_antisym b c). by destruct (Compare b c). }
    assert (Compare b a = Lt) as H2.
    { rewrite (Compare_antisym a b). by destruct (Compare a b). }
    pose proof (Compare_lt_trans _ _ _ H1 H2) as H3.
    rewrite (Compare_antisym c a), H3. done.
  - intros a b c Hab Hba Hbc Hcb.
    pose proof (Heq _ _ Hab Hba) as E1. pose proof (Heq _ _ Hbc Hcb) as E2.
    assert (Compare a c = Eq) as E3 by by rewrite (Compare_eq_compat _ _ _ E1).
    unfold GreaterThan. rewrite (Compare_antisym a c), E3. done.
Qed.

Lemma StrictWeak_not_less_trans {A} (less : A → A → bool) :
  StrictWeak less →
  ∀ a b c, less b a = false → less c b = false → less c a = false.
Proof.
  intros [Hirr Htr Hinc] a b c Hba Hcb.
  destruct (less c a) eqn:Hca; [|done].
  destruct (less a b) eqn:Hab.
  { by rewrite (Htr _ _ _ Hca Hab) in Hcb. }
  destruct (less b c) eqn:Hbc.
  { by rewrite (Htr _ _ _ Hbc Hca) in Hba. }
  destruct (Hinc a b c Hab Hba Hbc Hcb) as [_ ?]. congruence.
Qed.

Lemma sorted_head_greatest {A} (less : A → A → bool) x l :
  StrictWeak less →
  Sorted (λ a b, less b a = false) (x :: l) →
  ∀ y, y ∈ l → less y x = false.
Proof.
  intros Hsw Hs. apply Sorted_StronglySorted in Hs.
  - apply StronglySorted_inv in Hs as [_ Hall].
    intros y Hy. rewrite List.Forall_forall in Hall.
    apply Hall. by apply list_elem_of_In.
  - intros a b c. by apply StrictWeak_not_less_trans.
Qed.

Section latest_facts.
Context `{P : SemverPkg} `{S : Sorter}.
Context {laws : SemverLaws P} {spec : SorterSpec S}.

Lemma latest_invalid versions w :
  versions ≠ [] → validVersions versions = [] →
  latest versions w =
    (Panicked "runtime error: index out of range [0] with length 0", w).
Proof.
  intros Hne Hv. unfold latest. rewrite bool_decide_eq_false_2.
  2:{ by destruct versions. }
  pose proof (sort_Slice_perm _ GreaterThan (validVersions versions)) as Hp.
  rewrite Hv in Hp. apply Permutation_nil_r in Hp. by rewrite Hv, Hp.
Qed.

Lemma latest_valid versions w :
  validVersions versions ≠ [] →
  ∃ m, latest versions w = (Returned (Version_String m, None), w)
       ∧ m ∈ validVersions versions
       ∧ ∀ v, v ∈ validVersions versions → GreaterThan v m = false.
Proof.
  intros Hv. unfold latest. rewrite bool_decide_eq_false_2.
  2:{ by destruct versions. }
  pose proof (sort_Slice_perm _ GreaterThan (validVersions versions)) as Hp.
  pose proof (sort_Slice_sorted _ GreaterThan (validVersions versions)
                GreaterThan_StrictWeak) as Hs.
  destruct (sort_Slice GreaterThan (validVersions versions)) as [|m l].
  { symmetry in Hp. by apply Permutation_nil_r in Hp. }
  exists m. split; [done|]. split.
  - rewrite <-Hp. by left.
  - intros v Hin. rewrite <-Hp in Hin.
    apply elem_of_cons in Hin as [->|Hin].
    + apply (sw_irrefl _ GreaterThan_StrictWeak).
    + by apply (sorted_head_greatest _ m l GreaterThan_StrictWeak Hs).
Qed.

(** Whatever [latest] returns is the marker or a printed version. *)
Lemma latest_returned versions w s e w' :
  latest versions w = (Returned (s, e), w') →
  e = None ∧ w' = w
  ∧ (s = "Not found" ∧ versions = []
     ∨ ∃ x v, x ∈ versions ∧ NewVersion x = Some v ∧ s = Version_String v).
Proof.
  unfold latest. case_bool_decide as Hl.
  - intros [= <- <- <-]. split_and!; try done. left.
    by destruct versions.
  - pose proof (sort_Slice_perm _ GreaterThan (validVersions versions)) as Hp.
    destruct (sort_Slice GreaterThan (validVersions versions)) as [|m l];
      [done|].
    intros [= <- <- <-]. split_and!; try done. right.
    assert (m ∈ validVersions versions) as Hm by (rewrite <-Hp; by left).
    apply list_elem_of_omap in Hm as (x & Hx & Hm). eauto.
Qed.
End latest_facts.

(** ** The model of the package satisfies the laws *)

Lemma Lawful_eq_compat_r {A} (cmp : A → A → comparison) a b c :
  Lawful cmp → cmp b c = Eq → cmp a c = cmp a b.
Proof.
  intros [Ha _ He] Hbc. pose proof (He _ _ a Hbc) as H.
  rewrite (Ha a b), (Ha a c) in H.
  destruct (cmp a b), (cmp a c); simpl in H; congruence.
Qed.

(** The three laws pass through [lexc], stated on the six comparisons
    involved so that pairs and lists can both use them. *)
Lemma lexc_lt_trans ab1 bc1 ac1 ab2 bc2 ac2 :
  (ab1 = Lt → bc1 = Lt → ac1 = Lt) →
  (ab1 = Eq → ac1 = bc1) → (bc1 = Eq → ac1 = ab1) →
  (ab2 = Lt → bc2 = Lt → ac2 = Lt) →
  lexc ab1 ab2 = Lt → lexc bc1 bc2 = Lt → lexc ac1 ac2 = Lt.
Proof.
  intros H1 H2 H3 H4.
  destruct ab1, bc1; simpl; try done; intros Ha Hb;
    rewrite ?H1, ?H2, ?H3 by done; simpl; auto.
Qed.

Lemma lexc_eq_compat ab1 bc1 ac1 ab2 bc2 ac2 :
  (ab1 = Eq → ac1 = bc1) → (ab2 = Eq → ac2 = bc2) →
  lexc ab1 ab2 = Eq → lexc ac1 ac2 = lexc bc1 bc2.
Proof.
  intros H1 H2. destruct ab1; simpl; try done.
  intros Hab. by rewrite H1, H2.
Qed.

Lemma lexc_opp c1 c2 : lexc (CompOpp c1) (CompOpp c2) = CompOpp (lexc c1 c2).
Proof. by destruct c1. Qed.

Lemma Lawful_N : Lawful N.compare.
Proof.
  split.
  - intros a b. apply N.compare_antisym.
  - intros a b c. rewrite !N.compare_lt_iff. lia.
  - intros a b c Hab. by apply N.compare_eq in Hab as ->.
Qed.

Lemma Lawful_list {A} (cmp : A → A → comparison) :
  Lawful cmp → Lawful (list_compare cmp).
Proof.
  intros Hl. pose proof Hl as [Ha Ht He]. split.
  - intros l1. induction l1 as [|a l1 IH]; intros [|b l2]; simpl; try done.
    by rewrite (Ha a b), IH, lexc_opp.
  - intros l1. induction l1 as [|a l1 IH]; intros [|b l2] [|c l3];
      simpl; try done.
    apply lexc_lt_trans; eauto using Lawful_eq_compat_r.
  - intros l1. induction l1 as [|a l1 IH]; intros [|b l2] [|c l3];
      simpl; try done.
    apply lexc_eq_compat; eauto.
Qed.

Lemma Lawful_sum {A B} (cmpA : A → A → comparison) (cmpB : B → B → comparison) :
  Lawful cmpA → Lawful cmpB → Lawful (sum_compare cmpA cmpB).
Proof.
  intros [Ha Ht He] [Ha' Ht' He']. split.
  - intros [a|a] [b|b]; simpl; auto.
  - intros [a|a] [b|b] [c|c]; simpl; eauto; done.
  - intros [a|a] [b|b] [c|c]; simpl; eauto; done.
Qed.

Lemma Lawful_unit : Lawful (λ _ _ : unit, Eq).
Proof. by split. Qed.

Lemma Lawful_pair {A B} (cmpA : A → A → comparison) (cmpB : B → B → comparison) :
  Lawful cmpA → Lawful cmpB → Lawful (pair_compare cmpA cmpB).
Proof.
  intros Hl Hl'. pose proof Hl as [Ha Ht He]. pose proof Hl' as [Ha' Ht' He'].
  unfold pair_compare. split.
  - intros [a a'] [b b']; simpl. by rewrite (Ha a b), (Ha' a' b'), lexc_opp.
  - intros [a a'] [b b'] [c c']; simpl.
    apply lexc_lt_trans; eauto using Lawful_eq_compat_r.
  - intros [a a'] [b b'] [c c']; simpl. apply lexc_eq_compat; eauto.
Qed.

Lemma Lawful_keyCompare : Lawful keyCompare.
Proof.
  unfold keyCompare. repeat (apply Lawful_pair; [apply Lawful_N|]).
  apply Lawful_sum; [|apply Lawful_unit].
  apply Lawful_list, Lawful_sum; [apply Lawful_N|apply Lawful_list, Lawful_N].
Qed.

Lemma Compare_key v o :
  Semver.Compare v o = keyCompare (versionKey v) (versionKey o).
Proof.
  unfold Semver.Compare, keyCompare, versionKey, prereleaseKey; simpl.
  by destruct (String.eqb (Semver.pre v) ""), (String.eqb (Semver.pre o) "").
Qed.

Lemma Semver_String_nonempty v : Semver.Version_String v ≠ "".
Proof.
  unfold Semver.Version_String.
  by destruct (Semver.Utoa (Semver.major v)).
Qed.

(** ** What the model prints parses again *)

Lemma digits_value_acc d acc :
  Semver.digits_value (Npos acc) (NilEmpty.string_of_uint d) =
    Npos (Pos.of_uint_acc d acc).
Proof.
  revert acc. induction d; intros acc; simpl; [done|..];
    rewrite <-IHd; f_equal; lia.
Qed.

Lemma digits_value_of_uint d :
  Semver.digits_value 0 (NilEmpty.string_of_uint d) = N.of_uint d.
Proof.
  unfold N.of_uint. induction d; simpl; try done; apply digits_value_acc.
Qed.

Lemma string_of_uint_digits d :
  Semver.all_chars Semver.is_digit (NilEmpty.string_of_uint d) = true.
Proof. induction d; simpl; done. Qed.

Lemma Utoa_value n : Semver.digits_value 0 (Semver.Utoa n) = n.
Proof.
  unfold Semver.Utoa. rewrite digits_value_of_uint.
  apply DecimalN.Unsigned.of_to.
Qed.

Lemma Utoa_digits n : Semver.all_chars Semver.is_digit (Semver.Utoa n) = true.
Proof. apply string_of_uint_digits. Qed.

Lemma Utoa_nonempty n : Semver.Utoa n ≠ "".
Proof.
  unfold Semver.Utoa. destruct n as [|p]; [done|]. simpl.
  pose proof (DecimalPos.Unsigned.to_uint_nonnil p) as Hp.
  by destruct (Pos.to_uint p).
Qed.

Lemma span_app p a b :
  Semver.all_chars p a = true → stops p b → Semver.span p (a +:+ b) = (a, b).
Proof.
  intros Ha Hb. induction a as [|c a IH]; simpl in *.
  - destruct b as [|c b]; [done|]. simpl in *. by rewrite Hb.
  - apply andb_true_iff in Ha as [-> Ha]. by rewrite IH.
Qed.

Lemma span_all p s : Semver.all_chars p (Semver.span p s).1 = true.
Proof.
  induction s as [|c s IH]; simpl; [done|].
  destruct (p c) eqn:Hc; [|done].
  destruct (Semver.span p s). simpl in *. by rewrite Hc.
Qed.

Lemma ParseUint_Some s n : Semver.ParseUint s = Some n → (n < 2 ^ 64)%N.
Proof.
  unfold Semver.ParseUint.
  destruct (negb (s =? "")%string && Semver.all_chars Semver.is_digit s);
    simpl; [|done].
  destruct (N.ltb_spec (Semver.digits_value 0 s) (2 ^ 64)); [|done].
  by intros [= <-].
Qed.

Lemma ParseUint_Utoa n :
  (n < 2 ^ 64)%N → Semver.ParseUint (Semver.Utoa n) = Some n.
Proof.
  intros Hn. unfold Semver.ParseUint.
  rewrite Utoa_digits, Utoa_value.
  apply N.ltb_lt in Hn as ->.
  pose proof (Utoa_nonempty n) as Hne. by apply String.eqb_neq in Hne as ->.
Qed.

Lemma segment_Some s n rest :
  Semver.segment s = Some (n, rest) → (n < 2 ^ 64)%N.
Proof.
  unfold Semver.segment. destruct (Semver.span Semver.is_digit s) as [ds r].
  intros (n' & Hp & [= <- <-])%bind_Some. by eapply ParseUint_Some.
Qed.

Lemma segment_Utoa n rest :
  (n < 2 ^ 64)%N → stops Semver.is_digit rest →
  Semver.segment (Semver.Utoa n +:+ rest) = Some (n, rest).
Proof.
  intros Hn Hr. unfold Semver.segment.
  rewrite span_app by auto using Utoa_digits.
  by rewrite ParseUint_Utoa.
Qed.

Lemma dot_segment_Some s n rest :
  Semver.dot_segment s = Some (n, rest) → (n < 2 ^ 64)%N.
Proof.
  unfold Semver.dot_segment. destruct (Semver.cut "." s).
  - apply segment_Some.
  - by intros [= <- <-].
Qed.

Lemma dot_segment_Utoa n rest :
  (n < 2 ^ 64)%N → stops Semver.is_digit rest →
  Semver.dot_segment ("." +:+ Semver.Utoa n +:+ rest) = Some (n, rest).
Proof. intros. by apply segment_Utoa. Qed.

Lemma metadata_tail_Some s m :
  Semver.metadata_tail s = Some m →
  Semver.metadata_tail (if String.eqb m "" then "" else "+" +:+ m) = Some m
  ∧ s = (if String.eqb m "" then "" else "+" +:+ m).
Proof.
  unfold Semver.metadata_tail at 1.
  destruct (String.eqb_spec s "") as [->|Hs]; [by intros [= <-]|].
  destruct s as [|c s]; [done|]. cbn [Semver.cut].
  destruct (Ascii.eqb_spec c "+") as [->|]; [|done].
  destruct (Semver.identifiers_ok s) eqn:Hok; [|done]. intros [= <-].
  destruct (String.eqb_spec s "") as [->|Hne]; [by vm_compute in Hok|].
  change ("+" +:+ s) with (String "+" s). split; [|done].
  unfold Semver.metadata_tail. cbn [String.eqb Semver.cut].
  by rewrite Ascii.eqb_refl, Hok.
Qed.

Lemma tail_suffix s p m :
  Semver.tail s = Some (p, m) → Semver.tail (suffix p m) = Some (p, m).
Proof.
  unfold Semver.tail at 1. destruct (Semver.cut "-" s) as [s'|] eqn:Hcut.
  - pose proof (span_all (λ c, negb (Ascii.eqb c "+")) s') as Hall.
    destruct (Semver.span _ s') as [p' rest]. simpl in Hall. cbv beta iota.
    destruct (Semver.prerelease_ok p') eqn:Hok; [|done].
    intros (m' & Hm & [= <- <-])%bind_Some.
    apply metadata_tail_Some in Hm as [Hm ->].
    unfold suffix.
    destruct (String.eqb_spec p' "") as [->|Hne]; [by vm_compute in Hok|].
    set (M := if String.eqb m' "" then "" else "+" +:+ m') in *.
    change (("-" +:+ p') +:+ M) with (String "-" (p' +:+ M)).
    unfold Semver.tail. cbn [Semver.cut].
    rewrite Ascii.eqb_refl, span_app; [by rewrite Hok, Hm|done|].
    subst M. by destruct (String.eqb m' "").
  - intros (m' & Hm & [= <- <-])%bind_Some.
    apply metadata_tail_Some in Hm as [Hm _].
    unfold suffix. change ("" =? "")%string with true. cbv iota.
    change ("" +:+ ?x) with x.
    destruct (String.eqb m' "").
    { vm_compute in Hm. by injection Hm as <-. }
    change ("+" +:+ m') with (String "+" m') in *.
    unfold Semver.tail. cbn [Semver.cut].
    change (("+" =? "-")%char) with false. cbv iota. by rewrite Hm.
Qed.

Lemma suffix_stops p m s :
  Semver.tail s = Some (p, m) → stops Semver.is_digit (suffix p m).
Proof.
  intros _. unfold suffix.
  destruct (String.eqb p ""), (String.eqb m ""); done.
Qed.

Lemma cut_v_Utoa n rest : Semver.cut "v" (Semver.Utoa n +:+ rest) = None.
Proof.
  pose proof (Utoa_nonempty n) as Hne. pose proof (Utoa_digits n) as Hd.
  destruct (Semver.Utoa n) as [|c r]; [done|].
  simpl in Hd. apply andb_true_iff in Hd as [Hc _].
  change (String c r +:+ rest) with (String c (r +:+ rest)).
  cbn [Semver.cut]. destruct (Ascii.eqb_spec c "v") as [->|]; [|done].
  by vm_compute in Hc.
Qed.

Lemma NewVersion_String x v :
  Semver.NewVersion x = Some v →
  is_Some (Semver.NewVersion (Semver.Version_String v)).
Proof.
  unfold Semver.NewVersion at 1.
  intros ([ma s1] & H1 & Hr)%bind_Some. cbv beta iota in Hr.
  apply bind_Some in Hr as ([mi s2] & H2 & Hr). cbv beta iota in Hr.
  apply bind_Some in Hr as ([pa s3] & H3 & Hr). cbv beta iota in Hr.
  apply bind_Some in Hr as ([p m] & H4 & [= <-]).
  apply segment_Some in H1. apply dot_segment_Some in H2, H3.
  unfold Semver.Version_String.
  cbn [Semver.major Semver.minor Semver.patch Semver.pre Semver.metadata].
  fold (suffix p m). unfold Semver.NewVersion.
  rewrite cut_v_Utoa. cbn [default].
  rewrite segment_Utoa by done. cbn [mbind option_bind].
  rewrite dot_segment_Utoa by done. cbn [mbind option_bind].
  rewrite dot_segment_Utoa by eauto using suffix_stops.
  cbn [mbind option_bind].
  rewrite (tail_suffix _ _ _ H4). by eexists.
Qed.

#[export] Instance Masterminds_laws : SemverLaws Masterminds.
Proof.
  pose proof Lawful_keyCompare as [Ha Ht He]. split; simpl.
  - intros a b. rewrite !Compare_key. apply Ha.
  - intros a b c. rewrite !Compare_key. apply Ht.
  - intros a b c. rewrite !Compare_key. apply He.
  - apply Semver_String_nonempty.
  - apply NewVersion_String.
Qed.

(** ** Insertion sort is a sort *)

Lemma insert_by_perm {A} (less : A → A → bool) x l :
  insert_by less x l ≡ₚ x :: l.
Proof.
  induction l as [|y l IH]; simpl; [done|].
  destruct (less y x); [|done]. rewrite IH. apply Permutation_swap.
Qed.

Lemma insert_by_sorted {A} (less : A → A → bool) x l :
  StrictWeak less →
  Sorted (λ a b, less b a = false) l →
  Sorted (λ a b, less b a = false) (insert_by less x l).
Proof.
  intros [Hirr Htr _] Hs. induction Hs as [|y l Hs IH Hhd]; simpl.
  { repeat constructor. }
  destruct (less y x) eqn:Hyx.
  - constructor; [done|].
    destruct Hhd as [|z l Hz]; simpl in *.
    + constructor. destruct (less x y) eqn:Hxy; [|done].
      pose proof (Htr _ _ _ Hyx Hxy) as Hyy. by rewrite Hirr in Hyy.
    + destruct (less z x); constructor; [done|].
      destruct (less x y) eqn:Hxy; [|done].
      pose proof (Htr _ _ _ Hyx Hxy) as Hyy. by rewrite Hirr in Hyy.
  - constructor; [by constructor|]. by constructor.
Qed.

#[export] Instance InsertionSort_spec : SorterSpec InsertionSort.
Proof.
  split; simpl; unfold insertion_sort.
  - intros A less x. induction x as [|a x IH]; simpl; [done|].
    by rewrite insert_by_perm, IH.
  - intros A less x Hsw. induction x as [|a x IH]; simpl; [constructor|].
    by apply insert_by_sorted.
Qed.

(** ** Claims about the registry client and the report *)


Section report_facts.
Context `{P : SemverPkg} `{S : Sorter}.
Variable reg : registry.


Lemma forRange_cons {A} (turn : A → IO unit) entry entries w :
  forRange turn (entry :: entries) w =
    match turn entry w with
    | (Returned (), w') => forRange turn entries w'
    | (Panicked msg, w') => (Panicked msg, w')
    end.
Proof.
  simpl. unfold mbind, IO_bind. by destruct (turn entry w) as [[[]|msg] w'].
Qed.

Lemma report_unfold modules providers w :
  report reg modules providers w =
    match forRange (reportModule reg) modules w with
    | (Returned (), w') => forRange (reportProvider reg) providers w'
    | (Panicked msg, w') => (Panicked msg, w')
    end.
Proof.
  unfold report, mbind, IO_bind.
  by destruct (forRange (reportModule reg) modules w) as [[[]|msg] w'].
Qed.

Lemma reportModule_unfold source currentVersion w :
  reportModule reg (source, currentVersion) w =
    match getLatestVersion reg source w with
    | (Returned (_, Some e), w') =>
        Printf ("Error fetching latest version for " +:+ source +:+ ": "
                  +:+ Error e +:+ NL) w'
    | (Returned (latestVersion, None), w') =>
        (Printf ("Module source: " +:+ source +:+ NL);;
         Printf ("Current version: " +:+ currentVersion +:+ NL);;
         printLatest latestVersion) w'
    | (Panicked msg, w') => (Panicked msg, w')
    end.
Proof.
  unfold reportModule, mbind, IO_bind.
  by destruct (getLatestVersion reg source w) as [[[s [e|]]|msg] w'].
Qed.

Lemma reportProvider_unfold source currentVersion w :
  reportProvider reg (source, currentVersion) w =
    match getLatestProviderVersion reg source w with
    | (Returned (_, Some e), w') =>
        Printf ("Error fetching latest version for provider " +:+ source
                  +:+ ": " +:+ Error e +:+ NL) w'
    | (Returned (latestVersion, None), w') =>
        (Printf ("Provider source: " +:+ source +:+ NL);;
         Printf ("Current version: " +:+ currentVersion +:+ NL);;
         printLatest latestVersion) w'
    | (Panicked msg, w') => (Panicked msg, w')
    end.
Proof.
  unfold reportProvider, mbind, IO_bind.
  by destruct (getLatestProviderVersion reg source w) as [[[s [e|]]|msg] w'].
Qed.



Context {spec : SorterSpec S}.






End report_facts.

(** C1: what the code does.  When the registry answers with status 200 and
    a non-empty list of versions none of which is valid, the slice of valid
    versions is empty and indexing it panics, in both functions: they do not
    return at all, and the report stops with the panic at that entry. *)
Theorem C1_all_invalid_versions_panic `{P : SemverPkg} `{S : Sorter}
    {spec : SorterSpec S} (reg : registry) source versions w :
  versions ≠ [] → validVersions versions = [] →
  (∀ url,
     url = moduleURL (default "" (head (Split source "//"))) →
     reg (requests w) url = Response StatusOK (Versions versions) →
     getLatestVersion reg source w =
       (Panicked "runtime error: index out of range [0] with length 0",
        sent w url)
     ∧ ∀ currentVersion modules providers,
         report reg ((source, currentVersion) :: modules) providers w =
           (Panicked "runtime error: index out of range [0] with length 0",
            sent w url))
  ∧ (∀ id url,
       normalize source = Some id → url = providerURL id →
       reg (requests w) url = Response StatusOK (Versions versions) →
       getLatestProviderVersion reg source w =
         (Panicked "runtime error: index out of range [0] with length 0",
          sent w url)).
Proof.
  intros Hne Hv. split.
  - intros url -> Hr.
    assert (getLatestVersion reg source w =
              (Panicked "runtime error: index out of range [0] with length 0",
               sent w (moduleURL (default "" (head (Split source "//"))))))
      as Hp.
    { rewrite getLatestVersion_checked. cbv zeta. rewrite Hr. simpl.
      by apply latest_invalid. }
    split; [done|]. intros currentVersion modules providers.
    by rewrite report_unfold, forRange_cons, reportModule_unfold, Hp.
  - intros id url Hn -> Hr. rewrite getLatestProviderVersion_checked, Hn, Hr.
    simpl. by apply latest_invalid.
Qed.

(** C1 on a registry whose only version is the word latest. *)
Lemma C1_all_invalid_versions_panic_witness :
  getLatestVersion (always ["latest"]) "org/net/aws" start =
    (Panicked "runtime error: index out of range [0] with length 0",
     sent start (moduleURL "org/net/aws"))
  ∧ report (always ["latest"])
      [("org/net/aws", "1.0.0"); ("org/vpc/aws", "3.2.1")] [("aws", "")]
      start =
      (Panicked "runtime error: index out of range [0] with length 0",
       sent start (moduleURL "org/net/aws")).
Proof.
  destruct (proj1 (C1_all_invalid_versions_panic (always ["latest"])
                     "org/net/aws" ["latest"] start
                     ltac:(discriminate) eq_refl)
              (moduleURL "org/net/aws") eq_refl eq_refl) as [Hcall Hrun].
  split; [exact Hcall|apply Hrun].
Defined.

Section latest_claims.
Context `{P : SemverPkg} `{S : Sorter}.
Context {laws : SemverLaws P} {spec : SorterSpec S}.
Variable reg : registry.

Lemma latest_is_maximum versions w :
  (∃ x, x ∈ versions ∧ is_Some (NewVersion x)) →
  ∃ x m, x ∈ versions ∧ NewVersion x = Some m
         ∧ latest versions w = (Returned (Version_String m, None), w)
         ∧ ∀ y v, y ∈ versions → NewVersion y = Some v →
                  GreaterThan v m = false.
Proof.
  intros (x0 & Hx0 & [v0 Hv0]).
  assert (validVersions versions ≠ []) as Hv.
  { assert (v0 ∈ validVersions versions) as Hin
      by (apply list_elem_of_omap; eauto).
    intros Hnil. rewrite Hnil in Hin. by apply elem_of_nil in Hin. }
  destruct (latest_valid versions w Hv) as (m & Hl & Hm & Hmax).
  apply list_elem_of_omap in Hm as (x & Hx & Hm).
  exists x, m. split_and!; try done.
  intros y v Hy HNew. apply Hmax. apply list_elem_of_omap; eauto.
Qed.

(** C9.  A call that returns a nil error returns a string that is not
    empty: the marker Not found, or a valid version, namely what the package
    prints for one of the strings of the registry's answer that it accepted,
    which it accepts again.  The printer therefore always takes its second
    branch on it. *)
Theorem C9_nil_error_result_nonempty source w s w' :
  getLatestVersion reg source w = (Returned (s, None), w')
  ∨ getLatestProviderVersion reg source w = (Returned (s, None), w') →
  s ≠ ""
  ∧ (s = "Not found"
     ∨ is_Some (NewVersion s)
       ∧ ∃ history url versions x v,
           reg history url = Response StatusOK (Versions versions)
           ∧ x ∈ versions ∧ NewVersion x = Some v ∧ s = Version_String v)
  ∧ ∀ w'', printLatest s w'' =
             Printf ("Latest version: " +:+ s +:+ NL +:+ NL) w''.
Proof.
  intros Hret.
  assert (s = "Not found"
          ∨ ∃ history url versions x v,
              reg history url = Response StatusOK (Versions versions)
              ∧ x ∈ versions ∧ NewVersion x = Some v
              ∧ s = Version_String v) as Hs.
  { destruct Hret as [Hret|Hret].
    - rewrite getLatestVersion_checked in Hret. cbv zeta in Hret.
      case_response Hret; try done.
      apply latest_returned in Hret as (_ & _ & [[-> _]|(x & v & ? & ? & ?)]);
        [by left|right; eauto 10].
    - rewrite getLatestProviderVersion_checked in Hret.
      destruct (normalize source) as [id|]; [|done].
      case_response Hret; try done.
      apply latest_returned in Hret as (_ & _ & [[-> _]|(x & v & ? & ? & ?)]);
        [by left|right; eauto 10]. }
  assert (s ≠ "") as Hne.
  { destruct Hs as [->|(? & ? & ? & ? & v & _ & _ & _ & ->)]; [done|].
    apply String_nonempty. }
  split_and!; try done.
  - destruct Hs as [->|Hs]; [by left|right]. split; [|done].
    destruct Hs as (? & ? & ? & x & v & _ & _ & Hv & ->).
    by eapply String_valid.
  - intros w''. unfold printLatest.
    by apply String.eqb_neq in Hne as ->.
Qed.
End latest_claims.

(** C3.  When the answer holds at least one valid version, the call returns
    the printed form of a valid version of the list that no valid version
    of the list is greater than, the invalid strings playing no part; the
    same holds for providers.  With the package ordering by major, minor,
    patch and pre-release, the answer 1.0.0, 2.1.0, 1.9.9 resolves to 2.1.0
    whatever the sort does with equal elements. *)
Theorem C3_latest_is_maximum :
  (∀ (P : SemverPkg) (S : Sorter), SemverLaws P → SorterSpec S →
   ∀ (reg : registry) source versions w,
     (∃ x, x ∈ versions ∧ is_Some (NewVersion x)) →
     (∀ url,
        url = moduleURL (default "" (head (Split source "//"))) →
        reg (requests w) url = Response StatusOK (Versions versions) →
        ∃ x m, x ∈ versions ∧ NewVersion x = Some m
               ∧ getLatestVersion reg source w =
                   (Returned (Version_String m, None), sent w url)
               ∧ ∀ y v, y ∈ versions → NewVersion y = Some v →
                        GreaterThan v m = false)
     ∧ (∀ id url,
          normalize source = Some id → url = providerURL id →
          reg (requests w) url = Response StatusOK (Versions versions) →
          ∃ x m, x ∈ versions ∧ NewVersion x = Some m
                 ∧ getLatestProviderVersion reg source w =
                     (Returned (Version_String m, None), sent w url)
                 ∧ ∀ y v, y ∈ versions → NewVersion y = Some v →
                          GreaterThan v m = false))
  ∧ (∀ (S : Sorter), SorterSpec S →
     ∀ (reg : registry) source w url,
       url = moduleURL (default "" (head (Split source "//"))) →
       reg (requests w) url =
         Response StatusOK (Versions ["1.0.0"; "2.1.0"; "1.9.9"]) →
       getLatestVersion (P := Masterminds) reg source w =
         (Returned ("2.1.0", None), sent w url)).
Proof.
  assert (∀ (P : SemverPkg) (S : Sorter), SemverLaws P → SorterSpec S →
          ∀ (reg : registry) source versions w url,
            (∃ x, x ∈ versions ∧ is_Some (NewVersion x)) →
            url = moduleURL (default "" (head (Split source "//"))) →
            reg (requests w) url = Response StatusOK (Versions versions) →
            ∃ x m, x ∈ versions ∧ NewVersion x = Some m
                   ∧ getLatestVersion reg source w =
                       (Returned (Version_String m, None), sent w url)
                   ∧ ∀ y v, y ∈ versions → NewVersion y = Some v →
                            GreaterThan v m = false) as Hmod.
  { intros P S laws spec reg source versions w url Hex -> Hr.
    rewrite getLatestVersion_checked. cbv zeta. rewrite Hr. simpl.
    by apply latest_is_maximum. }
  split.
  - intros P S laws spec reg source versions w Hex. split.
    + intros url. by apply Hmod.
    + intros id url Hn -> Hr.
      rewrite getLatestProviderVersion_checked, Hn, Hr. simpl.
      by apply latest_is_maximum.
  - intros S spec reg source w url Hurl Hr.
    destruct (Hmod Masterminds S _ spec reg source
                ["1.0.0"; "2.1.0"; "1.9.9"] w url) as
      (x & m & Hx & Hm & -> & Hmax); [|done|done|].
    { exists "1.0.0". split; [by left|]. by eexists. }
    pose proof (Hmax "2.1.0" _ ltac:(by right; left) eq_refl) as H2.
    repeat (apply elem_of_cons in Hx as [->|Hx]).
    + vm_compute in Hm. injection Hm as <-. vm_compute in H2. done.
    + vm_compute in Hm. by injection Hm as <-.
    + vm_compute in Hm. injection Hm as <-. vm_compute in H2. done.
    + by apply elem_of_nil in Hx.
Qed.



(** The whole report of that run: the failure of the second module leaves
    the first, the third and the provider as they are. *)
Example report_smallRegistry :
  report smallRegistry
    [("org/net/aws", "1.0.0"); ("org/gone/aws", "0.1.0");
     ("org/net/aws//sub", "2.0.0")]
    [("aws", "4.0.0"); ("a/b/c", "")] start =
  (Returned (),
   {| requests := [ moduleURL "org/net/aws"; moduleURL "org/gone/aws";
                    moduleURL "org/net/aws"; providerURL "hashicorp/aws" ];
      stdout :=
        [ "Module source: org/net/aws" +:+ NL;
          "Current version: 1.0.0" +:+ NL;
          "Latest version: 2.1.0" +:+ NL +:+ NL;
          "Error fetching latest version for org/gone/aws: "
            +:+ "failed to fetch latest version, status code: 404" +:+ NL;
          "Module source: org/net/aws//sub" +:+ NL;
          "Current version: 2.0.0" +:+ NL;
          "Latest version: 2.1.0" +:+ NL +:+ NL;
          "Provider source: aws" +:+ NL;
          "Current version: 4.0.0" +:+ NL;
          "Latest version: 5.0.0" +:+ NL +:+ NL;
          "Error fetching latest version for provider a/b/c: "
            +:+ "provider format is incorrect: a/b/c" +:+ NL ] |}).
Proof. vm_compute. reflexivity. Qed.

(** ** The claims on concrete registries *)

(** C3 on an answer that mixes valid and invalid strings. *)
Lemma C3_latest_is_maximum_witness :
  let versions := ["1.0.0"; "nightly"; "v3.0.0-rc.1"; "2.1.0"] in
  ∃ x m, x ∈ versions ∧ NewVersion x = Some m
         ∧ getLatestVersion (always versions) "org/net/aws" start =
             (Returned (Version_String m, None),
              sent start (moduleURL "org/net/aws"))
         ∧ ∀ y v, y ∈ versions → NewVersion y = Some v →
                  GreaterThan v m = false.
Proof.
  refine (proj1 (proj1 C3_latest_is_maximum Masterminds InsertionSort
                   Masterminds_laws InsertionSort_spec
                   (always ["1.0.0"; "nightly"; "v3.0.0-rc.1"; "2.1.0"])
                   "org/net/aws" _ start _) _ eq_refl eq_refl).
  exists "1.0.0". split; [left|eexists; vm_compute; reflexivity].
Defined.

(** C4 on a source that already names its namespace. *)
Lemma C4_provider_normalization_witness :
  requests (getLatestProviderVersion smallRegistry "myorg/custom" start).2 =
    requests start ++ [providerURL "myorg/custom"].
Proof.
  apply (proj1 (proj2 (C4_provider_normalization smallRegistry
                         "myorg/custom" start))).
  reflexivity.
Defined.

(** C5 on a source with two double slashes: the first one counts. *)
Lemma C5_lookup_before_double_slash_witness :
  requests (getLatestVersion smallRegistry "org/net/aws//a//b" start).2 =
    requests start ++ [moduleURL "org/net/aws"]
  ∧ getLatestVersion smallRegistry "org/net/aws//a//b" start =
      getLatestVersion smallRegistry "org/net/aws" start.
Proof.
  apply (proj1 (proj2 (C5_lookup_before_double_slash smallRegistry
                         "org/net/aws//a//b" start))
           "org/net/aws" "a//b"); reflexivity.
Defined.

(** C6 on a registry that has no version of anything. *)
Lemma C6_empty_versions_not_found_witness :
  getLatestVersion (always []) "org/net/aws//sub" start =
    (Returned ("Not found", None), sent start (moduleURL "org/net/aws"))
  ∧ getLatestProviderVersion (always []) "aws" start =
      (Returned ("Not found", None),
       sent start (providerURL "hashicorp/aws")).
Proof.
  split.
  - apply (proj1 (C6_empty_versions_not_found (always []) "org/net/aws//sub"
                    start)); reflexivity.
  - apply (proj2 (C6_empty_versions_not_found (always []) "aws" start)
             "hashicorp/aws"); reflexivity.
Defined.

(** C9 on the first module of the small registry. *)
Lemma C9_nil_error_result_nonempty_witness :
  "2.1.0" ≠ ""
  ∧ is_Some (NewVersion "2.1.0")
  ∧ printLatest "2.1.0" start =
      Printf ("Latest version: " +:+ "2.1.0" +:+ NL +:+ NL) start.
Proof.
  destruct (C9_nil_error_result_nonempty smallRegistry "org/net/aws" start
              "2.1.0" (sent start (moduleURL "org/net/aws"))
              ltac:(left; vm_compute; reflexivity)) as (Hne & Hs & Hprint).
  split; [exact Hne|]. split; [|apply Hprint].
  destruct Hs as [Hs|[Hs _]]; [discriminate Hs|exact Hs].
Defined.

(** * Further properties of the extractor *)

Lemma MatchString_capture re line :
  MatchString re line = true ↔ is_Some (capture re line).
Proof.
  unfold MatchString, capture. rewrite bool_decide_eq_true.
  by rewrite fmap_is_Some.
Qed.

Lemma emitProvider_capture line m :
  emitProvider line m =
    match capture providerRegex line with
    | Some provider =>
        Maps (moduleMap m)
          (<[provider := default "" (capture versionRegex line)]>
             (providerMap m))
    | None => m
    end.
Proof.
  unfold emitProvider.
  destruct (capture providerRegex line) as [provider|] eqn:Hp.
  - pose proof (capture_nonempty providerRegex line provider eq_refl Hp) as Hne.
    unfold capture in *.
    destruct (FindStringSubmatch providerRegex line) as [r|]; simplify_eq/=.
    apply String.eqb_neq in Hne as ->.
    by destruct (FindStringSubmatch versionRegex line).
  - unfold capture in Hp.
    by destruct (FindStringSubmatch providerRegex line).
Qed.

(** X1.  A line met outside a module block that does not open one is a
    provider declaration by itself when it matches the provider pattern,
    with the version found on that same line or none, and is skipped
    otherwise; the lines after it are scanned as if it were not there. *)
Theorem X1_line_outside_block line rest m :
  MatchString moduleRegex line = false →
  scanLines (line :: rest) m =
    scanLines rest
      match capture providerRegex line with
      | Some provider =>
          Maps (moduleMap m)
            (<[provider := default "" (capture versionRegex line)]>
               (providerMap m))
      | None => m
      end.
Proof.
  intros Hm. simpl. rewrite Hm, <-emitProvider_capture.
  destruct (MatchString providerRegex line) eqn:Hp; [done|].
  rewrite emitProvider_capture.
  destruct (capture providerRegex line) eqn:Hc; [|done].
  assert (MatchString providerRegex line = true) as Hp'
    by (apply MatchString_capture; by rewrite Hc).
  congruence.
Qed.

(** X1 on a provider block: the version inside its braces is on a later
    line and is not attached to the provider. *)
Lemma X1_line_outside_block_witness :
  scanLines [ "provider 'aws' {"; "  version = '~> 4.0'"; "}" ] noMaps =
    Maps ∅ {[ "aws" := "" ]}.
Proof.
  rewrite (X1_line_outside_block "provider 'aws' {"
             [ "  version = '~> 4.0'"; "}" ] noMaps).
  - vm_compute. reflexivity.
  - vm_compute. reflexivity.
Defined.

(** X2.  A module block takes every line up to its bare closing brace for
    itself: whatever those lines are (provider lines, openers of other
    module blocks), the provider map comes out as it was and at most the
    one key of the block's last source is written in the module map.  When
    no later line is exactly a closing brace the block runs to the end of
    the file, and that is all the file contributes from there. *)
Theorem X2_block_takes_its_lines opener m :
  MatchString moduleRegex opener = true →
  (∀ body rest,
     blockBody body rest →
     ∃ m', scanLines (opener :: body ++ rest) m = scanLines rest m'
           ∧ providerMap m' = providerMap m
           ∧ ∀ k, lastCapture sourceRegex body ≠ Some k →
                  moduleMap m' !! k = moduleMap m !! k)
  ∧ (∀ rest,
       "}" ∉ rest →
       providerMap (scanLines (opener :: rest) m) = providerMap m
       ∧ ∀ k, lastCapture sourceRegex rest ≠ Some k →
              moduleMap (scanLines (opener :: rest) m) !! k = moduleMap m !! k).
Proof.
  intros Ho.
  assert (∀ body rest,
     blockBody body rest →
     ∃ m', scanLines (opener :: body ++ rest) m = scanLines rest m'
           ∧ providerMap m' = providerMap m
           ∧ ∀ k, lastCapture sourceRegex body ≠ Some k →
                  moduleMap m' !! k = moduleMap m !! k) as Hblock.
  { intros body rest Hb. eexists. split; [by apply module_block_emits|].
    destruct (lastCapture sourceRegex body) as [source|]; simpl; [|done].
    split; [done|]. intros k Hk. apply lookup_insert_ne. congruence. }
  split; [done|]. intros rest Hrest.
  destruct (Hblock rest []) as (m' & Hscan & Hp & Hm); [by right|].
  rewrite app_nil_r in Hscan. by rewrite Hscan.
Qed.

(** X2 on a file whose first block closes with an indented brace: the
    provider line and the first source are lost to it. *)
Lemma X2_block_takes_its_lines_witness :
  let file := [ "module " +:+ quoted "a" +:+ " {"; "  source = 'org/a/aws'";
                "  }"; "provider 'aws'";
                "module " +:+ quoted "b" +:+ " {"; "  source = 'org/b/aws'" ] in
  providerMap (scanLines file noMaps) = ∅
  ∧ moduleMap (scanLines file noMaps) !! "org/a/aws" = None.
Proof.
  destruct (proj2 (X2_block_takes_its_lines
                     ("module " +:+ quoted "a" +:+ " {") noMaps eq_refl)
              [ "  source = 'org/a/aws'"; "  }"; "provider 'aws'";
                "module " +:+ quoted "b" +:+ " {"; "  source = 'org/b/aws'" ])
    as [Hp Hm].
  - intros H. repeat (apply elem_of_cons in H as [H|H]; [discriminate H|]).
    exact (proj1 (elem_of_nil _) H).
  - split; [exact Hp|]. apply (Hm "org/a/aws"). vm_compute. discriminate.
Defined.

(** ** What the maps hold *)

Lemma consume_group_in p a c r :
  (grp a = true → ∀ c, cls a c = true → p c = true) → cls a c = true →
  chars_all p r.2 = true → chars_all p (consume a c r).2 = true.
Proof.
  intros Ha Hc Hr. unfold consume; simpl.
  destruct (grp a); [|done]. simpl. by rewrite Ha.
Qed.

Lemma star_group_in p a k s r :
  (grp a = true → ∀ c, cls a c = true → p c = true) →
  (∀ s' r', k s' = Some r' → chars_all p r'.2 = true) →
  star a k s = Some r → chars_all p r.2 = true.
Proof.
  intros Ha Hk. revert r.
  induction s as [|c s IH]; simpl; intros r; [by apply Hk|].
  destruct (cls a c) eqn:Hc; [|by apply Hk].
  destruct (star a k s) as [r'|] eqn:E; [|by apply Hk].
  intros [= <-]. apply consume_group_in; auto.
Qed.

Lemma match_here_group_in p re s r :
  group_in p re → match_here re s = Some r → chars_all p r.2 = true.
Proof.
  intros Hre. revert s r.
  induction Hre as [|a re Ha Hre IH]; intros s r; simpl.
  { by intros [= <-]. }
  destruct (rep a).
  - destruct s as [|c s]; [done|]. destruct (cls a c) eqn:Hc; [|done].
    intros (r' & Hr' & ->)%fmap_Some. apply consume_group_in; eauto.
  - apply star_group_in; eauto.
  - destruct s as [|c s]; [done|]. destruct (cls a c) eqn:Hc; [|done].
    intros (r' & Hr' & ->)%fmap_Some. apply consume_group_in; auto.
    revert Hr'. apply star_group_in; eauto.
Qed.

Lemma capture_group_in p re line x :
  group_in p re → capture re line = Some x → chars_all p x = true.
Proof.
  intros Hre (r & Hr & ->)%fmap_Some. revert Hr.
  induction line as [|c line IH]; simpl.
  - destruct (match_here re "") eqn:E; [|done].
    intros [= <-]. by eapply match_here_group_in.
  - destruct (match_here re (String c line)) eqn:E; [|done].
    intros [= <-]. by eapply match_here_group_in.
Qed.

(** The groups of the three capturing patterns hold no quote. *)
Ltac group_in_noquote :=
  unfold group_in;
  repeat (constructor; [cbn [grp cls]; first [discriminate | by intros _ c Hc]|]);
  constructor.

Lemma assignRegex_noQuote key :
  group_in (λ c, negb (is_quote c)) (assignRegex key).
Proof.
  unfold assignRegex. unfold group_in. rewrite !Forall_app. split_and!;
    try group_in_noquote.
  induction key as [|c key IH]; simpl; constructor; [discriminate|done].
Qed.

Lemma providerRegex_noQuote : group_in (λ c, negb (is_quote c)) providerRegex.
Proof. group_in_noquote. Qed.

Lemma capture_assign_noQuote key line x :
  capture (assignRegex key) line = Some x → noQuote x.
Proof. apply capture_group_in, assignRegex_noQuote. Qed.

Lemma moduleBody_noQuote source version lines :
  noQuote source → noQuote version →
  noQuote (moduleBody source version lines).1.1
  ∧ noQuote (moduleBody source version lines).1.2.
Proof.
  revert source version.
  induction lines as [|line lines IH]; intros source version Hs Hv; [done|].
  rewrite moduleBody_step. cbv zeta.
  assert (noQuote (default source (capture sourceRegex line))) as Hs'.
  { destruct (capture sourceRegex line) eqn:E; [|done].
    by eapply capture_assign_noQuote. }
  assert (noQuote (default version (capture versionRegex line))) as Hv'.
  { destruct (capture versionRegex line) eqn:E; [|done].
    by eapply capture_assign_noQuote. }
  destruct (String.eqb line "}"); [done|]. by apply IH.
Qed.

Lemma moduleDecl_ok source version :
  noQuote source → noQuote version → Forall declOk (moduleDecl source version).
Proof.
  intros Hs Hv. unfold moduleDecl.
  destruct (String.eqb_spec source ""); repeat constructor; done.
Qed.

Lemma providerDecl_ok line : Forall declOk (providerDecl line).
Proof.
  unfold providerDecl.
  destruct (String.eqb_spec (default "" (capture providerRegex line)) "")
    as [|Hne]; repeat constructor; [done|..].
  - destruct (capture providerRegex line) eqn:E; [|done].
    by eapply capture_group_in, E; apply providerRegex_noQuote.
  - destruct (capture versionRegex line) eqn:E; [|done].
    by eapply capture_assign_noQuote.
Qed.

Lemma declarations_ok lines : Forall declOk (declarations lines).
Proof.
  remember (length lines) as n eqn:Hn. revert lines Hn.
  induction n as [n IH] using lt_wf_ind. intros [|line rest] Hn; [constructor|].
  destruct (MatchString moduleRegex line) eqn:Hm.
  - rewrite declarations_module by done.
    pose proof (moduleBody_rest_length "" "" rest) as Hlen.
    pose proof (moduleBody_noQuote "" "" rest eq_refl eq_refl) as [Hs Hv].
    destruct (moduleBody "" "" rest) as [[source version] rest'].
    apply Forall_app. split; [by apply moduleDecl_ok|].
    eapply IH; [|done]. simpl in *. lia.
  - simpl. rewrite Hm. destruct (MatchString providerRegex line).
    + apply Forall_app. split; [apply providerDecl_ok|].
      eapply IH; [|done]. simpl in *. lia.
    + eapply IH; [|done]. simpl in *. lia.
Qed.

Lemma runDecls_ok files : Forall declOk (runDecls files).
Proof.
  induction files as [|f files IH]; [constructor|]. simpl.
  apply Forall_app. split.
  - destruct f; [constructor|apply declarations_ok].
  - destruct (fileErr f); [constructor|done].
Qed.

Lemma applyDecl_ok m d : mapsOk m → declOk d → mapsOk (applyDecl m d).
Proof.
  intros [Hm Hp] Hd. destruct d as [k v|k v]; split; simpl; try done;
    by apply map_Forall_insert_2.
Qed.

Lemma foldl_applyDecl_ok ds m :
  mapsOk m → Forall declOk ds → mapsOk (foldl applyDecl m ds).
Proof.
  intros Hm Hds. revert m Hm.
  induction Hds as [|d ds Hd Hds IH]; intros m Hm; [done|].
  simpl. by apply IH, applyDecl_ok.
Qed.

(** X3.  Whatever the files hold, every entry of the two maps after the walk
    has a key that is not empty, and neither the key nor the version holds
    a single or double quote; the scan of one more file keeps maps of that
    kind so. *)
Theorem X3_entries_are_clean files :
  (∀ m, mapsOk m → mapsOk (walk files m).1)
  ∧ (∀ k v,
       moduleMap (walk files noMaps).1 !! k = Some v
       ∨ providerMap (walk files noMaps).1 !! k = Some v →
       k ≠ "" ∧ noQuote k ∧ noQuote v).
Proof.
  assert (∀ m, mapsOk m → mapsOk (walk files m).1) as Hkeep.
  { intros m Hm. rewrite walk_runDecls.
    by apply foldl_applyDecl_ok, runDecls_ok. }
  split; [done|]. intros k v Hk.
  destruct (Hkeep noMaps) as [Hm Hp].
  { split; apply map_Forall_empty. }
  destruct Hk as [Hk|Hk]; [by apply (Hm k v)|by apply (Hp k v)].
Qed.

(** X3 on a file that tries an empty source and a value with a quote in
    it: the first is not recorded, the second is cut at the quote. *)
Lemma X3_entries_are_clean_witness :
  let files := [ Scanned [ "module " +:+ quoted "a" +:+ " {";
                           "  source = ''"; "}";
                           "provider 'it's'" ] None ] in
  providerMap (walk files noMaps).1 !! "it" = Some ""
  ∧ "it" ≠ "" ∧ noQuote "it" ∧ noQuote "".
Proof.
  split; [vm_compute; reflexivity|].
  apply (proj2 (X3_entries_are_clean
                  [ Scanned [ "module " +:+ quoted "a" +:+ " {";
                              "  source = ''"; "}";
                              "provider 'it's'" ] None ]) "it" "").
  right. vm_compute. reflexivity.
Defined.

Lemma foldl_applyDecl_keeps ds m k :
  (is_Some (moduleMap m !! k) →
   is_Some (moduleMap (foldl applyDecl m ds) !! k))
  ∧ (is_Some (providerMap m !! k) →
     is_Some (providerMap (foldl applyDecl m ds) !! k)).
Proof.
  revert m. induction ds as [|d ds IH]; intros m; [done|]. simpl.
  destruct (IH (applyDecl m d)) as [IHm IHp].
  split; intros Hk; [apply IHm|apply IHp]; destruct d as [k' v'|k' v'];
    simpl; try done;
    rewrite lookup_insert_is_Some; destruct (decide (k' = k)); auto.
Qed.

(** X4.  The walk only adds entries or overwrites their versions: a key
    present in a map before is present after, through any files and also
    when the walk stops on an error. *)
Theorem X4_walk_keeps_keys files m k :
  (is_Some (moduleMap m !! k) → is_Some (moduleMap (walk files m).1 !! k))
  ∧ (is_Some (providerMap m !! k) →
     is_Some (providerMap (walk files m).1 !! k)).
Proof. rewrite walk_runDecls. apply foldl_applyDecl_keeps. Qed.

(** X4 on a module found in a first file and a walk that goes on through a
    second file and stops on a third that cannot be opened. *)
Lemma X4_walk_keeps_keys_witness :
  is_Some
    (moduleMap
       (walk [ Scanned [ "provider 'aws'" ] None;
               OpenFails (FileError "permission denied") ]
          (Maps {[ "org/net/aws" := "1.0.0" ]} ∅)).1 !! "org/net/aws").
Proof.
  apply (proj1 (X4_walk_keeps_keys
                  [ Scanned [ "provider 'aws'" ] None;
                    OpenFails (FileError "permission denied") ]
                  (Maps {[ "org/net/aws" := "1.0.0" ]} ∅) "org/net/aws")).
  exists "1.0.0". vm_compute. reflexivity.
Defined.

(** * Further properties of the registry client and the report *)

Section traffic.
Context `{P : SemverPkg} `{S : Sorter}.
Variable reg : registry.

Lemma getLatestVersion_world moduleSource w :
  (getLatestVersion reg moduleSource w).2 =
    sent w (moduleRequest (moduleSource, "")).
Proof.
  rewrite getLatestVersion_checked. cbv zeta. unfold moduleRequest. simpl.
  destruct (checked _ _); [done|]. by rewrite latest_world.
Qed.

Lemma getLatestProviderVersion_world providerSource w :
  (getLatestProviderVersion reg providerSource w).2 =
    match normalize providerSource with
    | Some id => sent w (providerURL id)
    | None => w
    end.
Proof.
  rewrite getLatestProviderVersion_checked.
  destruct (normalize providerSource); [|done].
  destruct (checked _ _); [done|]. by rewrite latest_world.
Qed.

Lemma printLatest_block latestVersion w :
  ∃ latest,
    printLatest latestVersion w =
      (Returned (),
       {| requests := requests w;
          stdout := stdout w
                      ++ ["Latest version: " +:+ latest +:+ NL +:+ NL] |}).
Proof.
  unfold printLatest. destruct (String.eqb latestVersion "").
  - by exists "Not found".
  - by exists latestVersion.
Qed.

(** One turn for a module, whatever comes of it: the request it makes, and
    the block it prints if it returns. *)
Lemma reportModule_turn entry w :
  requests (reportModule reg entry w).2 = requests w ++ [moduleRequest entry]
  ∧ ∀ w', reportModule reg entry w = (Returned (), w') →
          ∃ block, moduleBlock entry block ∧ stdout w' = stdout w ++ block.
Proof.
  destruct entry as [source currentVersion].
  rewrite reportModule_unfold.
  pose proof (getLatestVersion_world source w) as Hw.
  destruct (getLatestVersion reg source w) as [[[s [e|]]|msg] w1];
    simpl in Hw; subst w1.
  - split; [done|]. intros w' [= <-]. eexists. split; [left; by eexists|done].
  - unfold mbind, IO_bind, Printf. cbn [requests stdout sent].
    edestruct printLatest_block as [latest ->].
    split; [done|]. intros w' [= <-]. eexists. split; [right; by eexists|].
    cbn [stdout]. by rewrite <-!app_assoc.
  - done.
Qed.

Lemma reportProvider_turn entry w :
  requests (reportProvider reg entry w).2 =
    requests w ++ option_list (providerRequest entry)
  ∧ ∀ w', reportProvider reg entry w = (Returned (), w') →
          ∃ block, providerBlock entry block ∧ stdout w' = stdout w ++ block.
Proof.
  destruct entry as [source currentVersion].
  rewrite reportProvider_unfold. unfold providerRequest. cbn [fst].
  pose proof (getLatestProviderVersion_world source w) as Hw.
  assert (∀ w1 : World,
            w1 = match normalize source with
                 | Some id => sent w (providerURL id)
                 | None => w
                 end →
            requests w1 = requests w ++ option_list (providerURL <$> normalize source)
            ∧ stdout w1 = stdout w) as Hsent.
  { intros w1 ->. destruct (normalize source); simpl; [done|].
    by rewrite app_nil_r. }
  destruct (getLatestProviderVersion reg source w) as [[[s [e|]]|msg] w1];
    simpl in Hw; destruct (Hsent w1 Hw) as [Hreq Hout].
  - split; [done|]. intros w' [= <-]. eexists. split; [left; by eexists|].
    cbn [stdout]. by rewrite Hout.
  - unfold mbind, IO_bind, Printf. cbn [requests stdout].
    edestruct printLatest_block as [latest ->].
    split; [done|]. intros w' [= <-]. eexists. split; [right; by eexists|].
    cbn [stdout]. by rewrite Hout, <-!app_assoc.
  - done.
Qed.

(** A loop whose turns each add known requests and, when they return, a
    block of a known kind. *)
Lemma forRange_trace {A} (turn : A → IO unit) (req : A → list string)
    (blockOf : A → list string → Prop) entries w :
  (∀ entry w,
     requests (turn entry w).2 = requests w ++ req entry
     ∧ ∀ w', turn entry w = (Returned (), w') →
             ∃ block, blockOf entry block ∧ stdout w' = stdout w ++ block) →
  (∃ made,
     requests (forRange turn entries w).2 = requests w ++ made
     ∧ made `prefix_of` concat (req <$> entries))
  ∧ ∀ w', forRange turn entries w = (Returned (), w') →
          requests w' = requests w ++ concat (req <$> entries)
          ∧ ∃ blocks, Forall2 blockOf entries blocks
                      ∧ stdout w' = stdout w ++ concat blocks.
Proof.
  intros Hturn. revert w.
  induction entries as [|entry entries IH]; intros w.
  { split.
    - exists []. by rewrite app_nil_r.
    - intros w' [= <-]. rewrite app_nil_r. split; [done|].
      exists []. split; [constructor|]. by rewrite app_nil_r. }
  rewrite forRange_cons. destruct (Hturn entry w) as [Hreq Hblock].
  destruct (turn entry w) as [[[]|msg] w1]; simpl in Hreq.
  - destruct (IH w1) as [(made & Hmade & Hpre) Hret].
    destruct (Hblock w1 eq_refl) as (block & Hb & Hout). split.
    + exists (req entry ++ made). rewrite Hmade, Hreq, <-app_assoc.
      split; [done|]. simpl. by apply prefix_app.
    + intros w' Hw'. destruct (Hret w' Hw') as (Hr & blocks & Hbs & Ho).
      split.
      * rewrite Hr, Hreq, <-app_assoc. done.
      * exists (block :: blocks). split; [by constructor|].
        rewrite Ho, Hout, <-app_assoc. done.
  - split; [|done]. exists (req entry). split; [done|].
    simpl. by apply prefix_app_r.
Qed.

(** X5.  The report asks the registry once for every module entry, and once
    for every provider entry whose identifier is well formed, in the order
    of the two loops and without remembering an answer: when it returns,
    the requests made are exactly these, and when it panics they are the
    first of these. *)
Theorem X5_one_request_per_entry modules providers w :
  let planned := (moduleRequest <$> modules) ++ omap providerRequest providers in
  (∃ made,
     requests (report reg modules providers w).2 = requests w ++ made
     ∧ made `prefix_of` planned)
  ∧ ∀ w', report reg modules providers w = (Returned (), w') →
          requests w' = requests w ++ planned.
Proof.
  intros planned. subst planned. rewrite report_unfold.
  assert (concat ((λ e, [moduleRequest e]) <$> modules)
          = moduleRequest <$> modules) as Em.
  { induction modules as [|e es IH]; [done|].
    rewrite !fmap_cons, concat_cons, IH. done. }
  assert (concat ((λ e, option_list (providerRequest e)) <$> providers)
          = omap providerRequest providers) as Ep.
  { induction providers as [|e es IH]; [done|].
    rewrite fmap_cons, concat_cons, IH. cbn [omap list_omap].
    by destruct (providerRequest e). }
  destruct (forRange_trace (reportModule reg) (λ e, [moduleRequest e])
              moduleBlock modules w reportModule_turn)
    as [(made & Hmade & Hpre) Hret].
  rewrite Em in *.
  destruct (forRange (reportModule reg) modules w) as [[[]|msg] w1].
  - destruct (Hret w1 eq_refl) as [Hr _].
    destruct (forRange_trace (reportProvider reg)
                (λ e, option_list (providerRequest e))
                providerBlock providers w1 reportProvider_turn)
      as [(made' & Hmade' & Hpre') Hret'].
    rewrite Ep in *. split.
    + exists ((moduleRequest <$> modules) ++ made').
      rewrite Hmade', Hr, <-app_assoc. split; [done|].
      by apply prefix_app.
    + intros w' Hw'. destruct (Hret' w' Hw') as [Hr' _].
      by rewrite Hr', Hr, <-app_assoc.
  - split; [|done]. exists made. split; [done|].
    by apply prefix_app_r.
Qed.

(** X6.  A report that returns has printed one block for every entry, the
    modules first and then the providers, each in the order of its loop:
    the line of the entry's error, or the three lines giving its source,
    its current version and a latest version. *)
Theorem X6_one_block_per_entry modules providers w w' :
  report reg modules providers w = (Returned (), w') →
  ∃ moduleBlocks providerBlocks,
    Forall2 moduleBlock modules moduleBlocks
    ∧ Forall2 providerBlock providers providerBlocks
    ∧ stdout w' = stdout w ++ concat moduleBlocks ++ concat providerBlocks.
Proof.
  rewrite report_unfold.
  destruct (forRange_trace (reportModule reg) (λ e, [moduleRequest e])
              moduleBlock modules w reportModule_turn) as [_ Hret].
  destruct (forRange (reportModule reg) modules w) as [[[]|msg] w1]; [|done].
  destruct (Hret w1 eq_refl) as (_ & mbs & Hmbs & Hout).
  destruct (forRange_trace (reportProvider reg)
              (λ e, option_list (providerRequest e))
              providerBlock providers w1 reportProvider_turn) as [_ Hret'].
  intros Hw'. destruct (Hret' w' Hw') as (_ & pbs & Hpbs & Hout').
  exists mbs, pbs. split_and!; try done.
  by rewrite Hout', Hout, <-app_assoc.
Qed.
End traffic.

(** X5 on two entries for one module under two submodule paths: the same
    URL is requested twice. *)
Lemma X5_one_request_per_entry_witness :
  requests
    (report smallRegistry
       [("org/net/aws//a", "1.0.0"); ("org/net/aws//b", "1.0.0")]
       [("a/b/c", "")] start).2 =
    [moduleURL "org/net/aws"; moduleURL "org/net/aws"].
Proof.
  apply (proj2 (X5_one_request_per_entry smallRegistry
                  [("org/net/aws//a", "1.0.0"); ("org/net/aws//b", "1.0.0")]
                  [("a/b/c", "")] start)
           (report smallRegistry
              [("org/net/aws//a", "1.0.0"); ("org/net/aws//b", "1.0.0")]
              [("a/b/c", "")] start).2).
  vm_compute. reflexivity.
Defined.

(** X6 on the run of the small registry: three module blocks, two provider
    blocks. *)
Lemma X6_one_block_per_entry_witness :
  ∃ moduleBlocks providerBlocks,
    Forall2 moduleBlock
      [("org/net/aws", "1.0.0"); ("org/gone/aws", "0.1.0");
       ("org/net/aws//sub", "2.0.0")] moduleBlocks
    ∧ Forall2 providerBlock [("aws", "4.0.0"); ("a/b/c", "")] providerBlocks
    ∧ stdout
        (report smallRegistry
           [("org/net/aws", "1.0.0"); ("org/gone/aws", "0.1.0");
            ("org/net/aws//sub", "2.0.0")]
           [("aws", "4.0.0"); ("a/b/c", "")] start).2 =
        stdout start ++ concat moduleBlocks ++ concat providerBlocks.
Proof.
  apply (X6_one_block_per_entry smallRegistry
           [("org/net/aws", "1.0.0"); ("org/gone/aws", "0.1.0");
            ("org/net/aws//sub", "2.0.0")]
           [("aws", "4.0.0"); ("a/b/c", "")] start).
  vm_compute. reflexivity.
Defined.

(** * The walk over the directory tree *)

Lemma node_ind' (Q : node → Prop) :
  (∀ path e, Q (Unknown path e)) →
  (∀ path name, Q (Plain path name)) →
  (∀ path name readErr entries,
     Forall Q entries → Q (Directory path name readErr entries)) →
  ∀ n, Q n.
Proof.
  intros HU HP HD. fix IH 1. intros [path e|path name|path name readErr entries].
  - apply HU.
  - apply HP.
  - apply HD. induction entries as [|entry entries IHentries]; constructor.
    + apply IH.
    + apply IHentries.
Qed.

Lemma walk_app files files' m :
  walk (files ++ files') m =
    match walk files m with
    | (m', Some e) => (m', Some e)
    | (m', None) => walk files' m'
    end.
Proof.
  revert m. induction files as [|f files IH]; intros m; [done|].
  simpl. destruct (extractModules f m) as [m' [e|]]; [done|]. apply IH.
Qed.

Lemma append_assoc (s t u : string) : (s +:+ t) +:+ u = s +:+ t +:+ u.
Proof. induction s as [|c s IH]; [done|]. exact (f_equal (String c) IH). Qed.

Lemma rev_app_append s acc : String.rev_app s acc = String.rev s +:+ acc.
Proof.
  unfold String.rev. revert acc.
  induction s as [|c s IH]; intros acc; [done|].
  simpl. rewrite (IH (String c "")), IH.
  by rewrite append_assoc.
Qed.

Lemma rev_append s t : String.rev (s +:+ t) = String.rev t +:+ String.rev s.
Proof.
  unfold String.rev. generalize "" at 1 3 as acc.
  induction s as [|c s IH]; intros acc.
  - apply rev_app_append.
  - apply (IH (String c acc)).
Qed.

Lemma Ext_tf p : Ext (p +:+ ".tf") = ".tf".
Proof. unfold Ext. by rewrite rev_append. Qed.

Lemma Ext_scan_suffix reversed suffix :
  Ext_scan reversed suffix = ""
  ∨ ∃ p, String.rev_app reversed suffix = p +:+ Ext_scan reversed suffix.
Proof.
  revert suffix. induction reversed as [|c reversed IH]; intros suffix;
    [by left|].
  simpl. destruct (Ascii.eqb c "/"); [by left|].
  destruct (Ascii.eqb c ".").
  - right. exists (String.rev reversed). apply rev_app_append.
  - apply IH.
Qed.

Lemma rev_involutive s : String.rev (String.rev s) = s.
Proof.
  induction s as [|c s IH]; [done|].
  change (String c s) with (String c "" +:+ s) at 1.
  by rewrite rev_append, rev_append, IH.
Qed.

Lemma Ext_suffix path : Ext path = "" ∨ ∃ p, path = p +:+ Ext path.
Proof.
  unfold Ext. destruct (Ext_scan_suffix (String.rev path) "") as [|[p Hp]];
    [by left|right].
  exists p. rewrite <-Hp. symmetry. apply rev_involutive.
Qed.

Section tree_facts.
Variable Open : string → file.

Lemma walkEntries_tfFiles entries m :
  Forall (λ n, ∀ m,
            filepath_walk (walkFn Open) n m =
              let '(m', err) := walk (tfFiles Open n) m in
              (m', match err with
                   | Some e => Some (Failure e)
                   | None => if hidden n then Some SkipDir else None
                   end)) entries →
  walkEntries (filepath_walk (walkFn Open)) entries m =
    let '(m', err) := walk (flat_map (tfFiles Open) entries) m in
    (m', Failure <$> err).
Proof.
  intros Hall. revert m.
  induction Hall as [|entry entries Hentry _ IH]; intros m; [done|].
  cbn [walkEntries flat_map]. rewrite Hentry, walk_app.
  destruct (walk (tfFiles Open entry) m) as [m' [e|]]; [done|].
  destruct entry as [path e|path name|path name [e|] sub]; cbn [hidden];
    try apply IH.
  destruct (HasPrefix name "."); apply IH.
Qed.

Lemma filepath_walk_tfFiles n m :
  filepath_walk (walkFn Open) n m =
    let '(m', err) := walk (tfFiles Open n) m in
    (m', match err with
         | Some e => Some (Failure e)
         | None => if hidden n then Some SkipDir else None
         end).
Proof.
  revert m. induction n as [path e|path name|path name readErr entries IH]
    using node_ind'; intros m.
  - done.
  - cbn [filepath_walk tfFiles hidden]. unfold walkFn.
    cbn [IsDir Name andb negb].
    destruct (String.eqb (Ext path) ".tf"); [|done].
    cbn [walk]. by destruct (extractModules (Open path) m) as [m' [e|]].
  - cbn [filepath_walk tfFiles hidden]. unfold walkFn.
    cbn [IsDir Name andb negb].
    destruct readErr as [e|]; [done|].
    destruct (HasPrefix name "."); [done|].
    rewrite walkEntries_tfFiles by done.
    by destruct (walk _ m) as [m' [e|]].
Qed.

Lemma filepath_Walk_tfFiles root m :
  filepath_Walk (walkFn Open) root m = walk (tfFiles Open root) m.
Proof.
  unfold filepath_Walk. rewrite filepath_walk_tfFiles.
  destruct (walk _ m) as [m' [e|]]; [done|]. by destruct (hidden root).
Qed.

Lemma tfFiles_emptyHidden n :
  tfFiles Open (emptyHidden n) = tfFiles Open n.
Proof.
  induction n as [path e|path name|path name readErr entries IH]
    using node_ind'; [done..|].
  cbn [emptyHidden tfFiles]. destruct readErr as [e|]; [done|].
  destruct (HasPrefix name "."); [done|].
  induction IH as [|entry entries Hentry _ IH]; [done|].
  cbn [map flat_map]. by rewrite Hentry, IH.
Qed.

Lemma tfFiles_ext (Open' : string → file) n :
  (∀ path, Ext path = ".tf" → Open path = Open' path) →
  tfFiles Open n = tfFiles Open' n.
Proof.
  intros Hagree.
  induction n as [path e|path name|path name readErr entries IH]
    using node_ind'; [done| |].
  - cbn [tfFiles]. destruct (String.eqb_spec (Ext path) ".tf"); [|done].
    by rewrite Hagree.
  - cbn [tfFiles]. destruct readErr as [e|]; [done|].
    destruct (HasPrefix name "."); [done|].
    induction IH as [|entry entries Hentry _ IH]; [done|].
    cbn [flat_map]. by rewrite Hentry, IH.
Qed.

End tree_facts.

Section tree_run.
Variable Open : string → file.

(** X7.  What the walk of a tree leaves in the maps and returns depends
    only on the files whose path ends in the extension of Terraform files
    and that lie outside the directories whose name begins with a dot:
    other files may hold anything, and such directories may hold
    anything. *)
Theorem X7_reads_only_visible_tf (Open' : string → file) root m :
  (∀ path, Ext path = ".tf" → Open path = Open' path) →
  filepath_Walk (walkFn Open) root m =
    filepath_Walk (walkFn Open') (emptyHidden root) m.
Proof.
  intros Hagree.
  by rewrite !filepath_Walk_tfFiles, tfFiles_emptyHidden,
       (tfFiles_ext Open Open').
Qed.

(** X8.  The callback reads what is not a directory exactly when its path
    ends in a dot followed by tf: then its result is that of
    [extractModules] on the path, and otherwise it leaves the maps as they
    are and returns no error, without opening anything. *)
Theorem X8_opens_exactly_tf_paths path name m :
  ((∃ p, path = p +:+ ".tf") →
   walkFn Open path (Some {| IsDir := false; Name := name |}) None m =
     match extractModules (Open path) m with
     | (m', Some e) => (m', Some (Failure e))
     | (m', None) => (m', None)
     end)
  ∧ ((∀ p, path ≠ p +:+ ".tf") →
     walkFn Open path (Some {| IsDir := false; Name := name |}) None m =
       (m, None)).
Proof.
  unfold walkFn. cbn [IsDir Name andb negb]. split.
  - intros [p ->]. by rewrite Ext_tf.
  - intros Hnot. destruct (String.eqb_spec (Ext path) ".tf") as [E|]; [|done].
    destruct (Ext_suffix path) as [E'|[p Hp]].
    + by rewrite E in E'.
    + rewrite E in Hp. by destruct (Hnot p).
Qed.

Context `{P : SemverPkg} `{S : Sorter}.
Variable reg : registry.

(** X9.  The run on a directory tree is the run on the list of the files
    the walk opens: the walk of the tree gives what the walk of that list
    gives, maps and error, and [main] prints and requests the same. *)
Theorem X9_tree_walk_is_file_walk range root :
  (∀ m, filepath_Walk (walkFn Open) root m = walk (tfFiles Open root) m)
  ∧ main_tree Open reg range root = main reg range (tfFiles Open root).
Proof.
  split; [intros m; apply filepath_Walk_tfFiles|].
  unfold main_tree, main. by rewrite filepath_Walk_tfFiles.
Qed.

(** X10.  A root directory that can be listed and whose own name begins
    with a dot is skipped as any other: nothing is read, nothing is printed
    and no request is made. *)
Theorem X10_dotted_root_is_skipped range path name entries w :
  range ∅ = [] →
  HasPrefix name "." = true →
  main_tree Open reg range (Directory path name None entries) w
    = (Returned (), w).
Proof.
  intros Hrange Hdot. unfold main_tree, filepath_Walk.
  cbn [filepath_walk]. unfold walkFn. cbn [IsDir Name andb]. rewrite Hdot.
  cbn [moduleMap providerMap]. rewrite Hrange. done.
Qed.

(** X11.  When a file the walk opens fails, the run prints the error and
    nothing else: what the files before it declared is not reported, and
    no request is made. *)
Theorem X11_first_error_ends_the_run range before f after e w :
  Forall (λ f, fileErr f = None) before →
  fileErr f = Some e →
  main reg range (before ++ f :: after) w =
    (Returned (),
     {| requests := requests w;
        stdout := stdout w ++ ["Error: " +:+ Error e +:+ NL] |}).
Proof.
  intros Hbefore Hf. unfold main. rewrite walk_app.
  assert (∀ m, (walk before m).2 = None) as Hok.
  { induction Hbefore as [|f0 before Hf0 _ IH]; intros m; [done|].
    cbn [walk]. destruct f0 as [e0|lines [e0|]]; try done. apply IH. }
  specialize (Hok (Maps ∅ ∅)).
  destruct (walk before (Maps ∅ ∅)) as [m' [e'|]]; [done|].
  cbn [walk]. destruct f as [e0|lines [e0|]]; simplify_eq/=; done.
Qed.
End tree_run.

(** X7 on the small tree: the cached file of the hidden directory and the
    file of another extension do not count. *)
Lemma X7_reads_only_visible_tf_witness :
  filepath_Walk (walkFn exampleOpen) exampleTree noMaps =
    filepath_Walk (walkFn exampleOpen') (emptyHidden exampleTree) noMaps.
Proof.
  apply (X7_reads_only_visible_tf exampleOpen exampleOpen' exampleTree noMaps).
  intros path Hext. unfold exampleOpen'. rewrite Hext. reflexivity.
Defined.

Lemma X8_opens_exactly_tf_paths_witness :
  walkFn exampleOpen "infra/net/main.tf"
      (Some {| IsDir := false; Name := "main.tf" |}) None noMaps =
    (Maps {[ "org/mod/provider" := "1.2.0" ]} ∅, None)
  ∧ walkFn exampleOpen "infra/main.tf.json"
      (Some {| IsDir := false; Name := "main.tf.json" |}) None noMaps =
    (noMaps, None).
Proof.
  split.
  - rewrite (proj1 (X8_opens_exactly_tf_paths exampleOpen
                      "infra/net/main.tf" "main.tf" noMaps)).
    + vm_compute. reflexivity.
    + exists "infra/net/main". reflexivity.
  - apply (proj2 (X8_opens_exactly_tf_paths exampleOpen
                    "infra/main.tf.json" "main.tf.json" noMaps)).
    intros p Hp. apply (f_equal Ext) in Hp. rewrite Ext_tf in Hp.
    vm_compute in Hp. discriminate Hp.
Defined.

(** X10 on a root given as a single dot. *)
Lemma X10_dotted_root_is_skipped_witness :
  main_tree exampleOpen smallRegistry map_to_list
    (Directory "." "." None [Plain "main.tf" "main.tf"]) start
  = (Returned (), start).
Proof.
  apply (X10_dotted_root_is_skipped exampleOpen smallRegistry map_to_list
           "." "." [Plain "main.tf" "main.tf"] start).
  - apply map_to_list_empty.
  - reflexivity.
Defined.

(** X11 on a readable file followed by one that cannot be opened. *)
Lemma X11_first_error_ends_the_run_witness :
  main smallRegistry map_to_list
    ([Scanned exampleBlock None]
       ++ OpenFails (FileError "permission denied") :: []) start
  = (Returned (),
     {| requests := [];
        stdout := ["Error: permission denied" +:+ NL] |}).
Proof.
  apply (X11_first_error_ends_the_run smallRegistry map_to_list
           [Scanned exampleBlock None]
           (OpenFails (FileError "permission denied")) []
           (FileError "permission denied") start).
  - repeat constructor.
  - reflexivity.
Defined.

(** * Lines the patterns take and lines they leave *)

Lemma append_cons c s t : String c s +:+ t = String c (s +:+ t).
Proof. done. Qed.

Lemma append_nil_r s : s +:+ "" = s.
Proof. induction s as [|c s IH]; [done|]. exact (f_equal (String c) IH). Qed.

Lemma quotes_app s t : quotes (s +:+ t) = (quotes s + quotes t)%nat.
Proof.
  induction s as [|c s IH]; [done|].
  rewrite append_cons. cbn [quotes]. rewrite IH. lia.
Qed.

Lemma noQuote_quotes s : noQuote s → quotes s = 0%nat.
Proof.
  unfold noQuote. induction s as [|c s IH]; [done|].
  cbn [chars_all quotes]. intros [Hc Hs]%andb_prop.
  apply negb_true_iff in Hc. rewrite Hc, IH; done.
Qed.

Lemma spaces_quotes s : spaces s → quotes s = 0%nat.
Proof.
  unfold spaces. induction s as [|c s IH]; [done|].
  cbn [chars_all quotes]. intros [Hc Hs]%andb_prop.
  rewrite IH by done.
  assert (is_quote c = false) as ->; [|done].
  unfold is_quote. destruct (Ascii.eqb_spec c DQ) as [->|]; [done|].
  destruct (Ascii.eqb_spec c SQ) as [->|]; done.
Qed.

(** ** What a match needs *)

Lemma star_inv a K s r :
  star a K s = Some r → ∃ s1 s2 r', s = s1 +:+ s2 ∧ K s2 = Some r'.
Proof.
  revert r. induction s as [|c s IH]; intros r; cbn [star].
  { intros H. by exists "", "", r. }
  destruct (cls a c); [|intros H; by exists "", (String c s), r].
  destruct (star a K s) as [r1|] eqn:E.
  - intros _. destruct (IH r1 eq_refl) as (s1 & s2 & r' & -> & HK).
    by exists (String c s1), s2, r'.
  - intros H. by exists "", (String c s), r.
Qed.

Lemma match_here_app_inv re1 re2 s r :
  match_here (re1 ++ re2) s = Some r →
  ∃ s1 s2 r2, s = s1 +:+ s2 ∧ match_here re2 s2 = Some r2.
Proof.
  revert s r. induction re1 as [|a re1 IH]; intros s r.
  { intros H. by exists "", s, r. }
  rewrite <-app_comm_cons. cbn [match_here]. destruct (rep a).
  - destruct s as [|c s]; [done|]. destruct (cls a c); [|done].
    intros (r' & Hr' & _)%fmap_Some.
    destruct (IH _ _ Hr') as (s1 & s2 & r2 & -> & H2).
    by exists (String c s1), s2, r2.
  - intros (s1 & s2 & r' & -> & Hk)%star_inv.
    destruct (IH _ _ Hk) as (t1 & t2 & r2 & -> & H2).
    exists (s1 +:+ t1), t2, r2. by rewrite append_assoc.
  - destruct s as [|c s]; [done|]. destruct (cls a c); [|done].
    intros (r' & (s1 & s2 & r'' & -> & Hk)%star_inv & _)%fmap_Some.
    destruct (IH _ _ Hk) as (t1 & t2 & r2 & -> & H2).
    exists (String c (s1 +:+ t1)), t2, r2.
    by rewrite append_cons, append_assoc.
Qed.

Lemma match_here_one_inv p g re s r :
  match_here (Atom p One g :: re) s = Some r →
  ∃ c s' r', s = String c s' ∧ p c = true ∧ match_here re s' = Some r'.
Proof.
  cbn [match_here rep cls]. destruct s as [|c s]; [done|].
  destruct (p c) eqn:Hc; [|done].
  intros (r' & Hr' & _)%fmap_Some. by exists c, s, r'.
Qed.

Lemma match_here_plus_inv p g re s r :
  match_here (Atom p Plus g :: re) s = Some r →
  ∃ s1 s2 r', s = s1 +:+ s2 ∧ match_here re s2 = Some r'.
Proof.
  change (Atom p Plus g :: re) with ([Atom p Plus g] ++ re).
  apply match_here_app_inv.
Qed.

Lemma FindStringSubmatch_inv re s r :
  FindStringSubmatch re s = Some r →
  ∃ pre s', s = pre +:+ s' ∧ match_here re s' = Some r.
Proof.
  induction s as [|c s IH].
  - cbn [FindStringSubmatch]. destruct (match_here re "") eqn:E; [|done].
    intros [= <-]. by exists "", "".
  - cbn [FindStringSubmatch].
    destruct (match_here re (String c s)) eqn:E.
    + intros [= <-]. by exists "", (String c s).
    + intros (pre & s' & -> & H)%IH. by exists (String c pre), s'.
Qed.

Lemma is_quote_DQ c : is_char DQ c = true → is_quote c = true.
Proof.
  unfold is_char. intros H. apply Ascii.eqb_eq in H as <-. done.
Qed.

Lemma assign_two_quotes key s r :
  match_here (assignRegex key) s = Some r → (2 ≤ quotes s)%nat.
Proof.
  unfold assignRegex. intros H.
  apply match_here_app_inv in H as (s1 & s2 & r2 & -> & H).
  apply match_here_app_inv in H as (s3 & s4 & r4 & -> & H).
  apply match_here_app_inv in H as (s5 & s6 & r6 & -> & H).
  apply match_here_app_inv in H as (s7 & s8 & r8 & -> & H).
  apply match_here_one_inv in H as (q1 & s9 & r9 & -> & Hq1 & H).
  apply match_here_plus_inv in H as (s10 & s11 & r11 & -> & H).
  apply match_here_one_inv in H as (q2 & s12 & r12 & -> & Hq2 & _).
  rewrite !quotes_app. cbn [quotes]. rewrite quotes_app. cbn [quotes].
  rewrite Hq1, Hq2. lia.
Qed.

Lemma provider_two_quotes s r :
  match_here providerRegex s = Some r → (2 ≤ quotes s)%nat.
Proof.
  unfold providerRegex. intros H.
  apply match_here_app_inv in H as (s1 & s2 & r2 & -> & H).
  apply match_here_app_inv in H as (s3 & s4 & r4 & -> & H).
  apply match_here_one_inv in H as (q1 & s9 & r9 & -> & Hq1 & H).
  apply match_here_plus_inv in H as (s10 & s11 & r11 & -> & H).
  apply match_here_one_inv in H as (q2 & s12 & r12 & -> & Hq2 & _).
  rewrite !quotes_app. cbn [quotes]. rewrite quotes_app. cbn [quotes].
  rewrite Hq1, Hq2. lia.
Qed.

Lemma module_two_quotes s r :
  match_here moduleRegex s = Some r → (2 ≤ quotes s)%nat.
Proof.
  unfold moduleRegex. intros H.
  apply match_here_app_inv in H as (s1 & s2 & r2 & -> & H).
  apply match_here_app_inv in H as (s3 & s4 & r4 & -> & H).
  apply match_here_one_inv in H as (q1 & s9 & r9 & -> & Hq1%is_quote_DQ & H).
  apply match_here_plus_inv in H as (s10 & s11 & r11 & -> & H).
  apply match_here_one_inv in H as (q2 & s12 & r12 & -> & Hq2%is_quote_DQ & _).
  rewrite !quotes_app. cbn [quotes]. rewrite quotes_app. cbn [quotes].
  rewrite Hq1, Hq2. lia.
Qed.

Lemma few_quotes_no_match re s :
  (∀ s' r, match_here re s' = Some r → (2 ≤ quotes s')%nat) →
  (quotes s < 2)%nat → FindStringSubmatch re s = None.
Proof.
  intros Hre Hs. destruct (FindStringSubmatch re s) as [r|] eqn:E; [|done].
  apply FindStringSubmatch_inv in E as (pre & s' & -> & H%Hre).
  rewrite quotes_app in Hs. lia.
Qed.

Lemma few_quotes_no_capture line :
  (quotes line < 2)%nat →
  MatchString moduleRegex line = false
  ∧ capture providerRegex line = None
  ∧ capture sourceRegex line = None
  ∧ capture versionRegex line = None.
Proof.
  intros Hq. unfold MatchString, capture.
  rewrite (few_quotes_no_match moduleRegex), (few_quotes_no_match providerRegex),
    (few_quotes_no_match sourceRegex), (few_quotes_no_match versionRegex);
    try done.
  - apply assign_two_quotes.
  - apply assign_two_quotes.
  - apply provider_two_quotes.
  - apply module_two_quotes.
Qed.

(** X12.  A line with fewer than two quote characters changes nothing:
    the outer loop passes over it, and inside a module block, unless it is
    the bare closing brace, it leaves the source and the version read so
    far as they are. *)
Theorem X12_lines_without_quotes_are_passed line :
  (quotes line < 2)%nat →
  (∀ rest m, scanLines (line :: rest) m = scanLines rest m)
  ∧ (line ≠ "}" →
     ∀ source version rest,
       moduleBody source version (line :: rest) =
         moduleBody source version rest).
Proof.
  intros (Hm & Hp & Hs & Hv)%few_quotes_no_capture. split.
  - intros rest m. simpl. rewrite Hm.
    assert (MatchString providerRegex line = false) as ->; [|done].
    apply not_true_iff_false. rewrite MatchString_capture, Hp.
    by intros [? ?].
  - intros Hline source version rest. rewrite moduleBody_step, Hs, Hv.
    cbv zeta. by apply String.eqb_neq in Hline as ->.
Qed.

(** ** What a well laid out assignment gives *)

Lemma match_here_lit k re s r :
  match_here re s = Some r →
  ∃ t, match_here (lit k ++ re) (k +:+ s) = Some (t, r.2).
Proof.
  intros H. induction k as [|c k [t IH]]; [exists r.1; by destruct r|].
  exists (String c t). cbn [lit app]. rewrite append_cons.
  cbn [match_here rep cls grp]. unfold is_char at 1.
  by rewrite Ascii.eqb_refl, IH.
Qed.

Lemma match_here_one p re c s r :
  p c = true → match_here re s = Some r →
  ∃ t, match_here (Atom p One false :: re) (String c s) = Some (t, r.2).
Proof.
  intros Hc H. exists (String c r.1). cbn [match_here rep cls grp].
  by rewrite Hc, H.
Qed.

(** Greedy repetition: all of [ws] is taken when what follows cannot be
    taken and the rest of the pattern matches there. *)
Lemma star_all a K ws s r :
  chars_all (cls a) ws = true →
  match s with String c _ => cls a c = false | EmptyString => True end →
  K s = Some r →
  star a K (ws +:+ s) =
    Some (ws +:+ r.1, if grp a then ws +:+ r.2 else r.2).
Proof.
  intros Hws Hs HK. induction ws as [|c ws IH].
  - change ("" +:+ s) with s. destruct s as [|c s]; cbn [star].
    + rewrite HK. by destruct r, (grp a).
    + rewrite Hs, HK. by destruct r, (grp a).
  - cbn [chars_all] in Hws. apply andb_prop in Hws as [Hc Hws].
    rewrite append_cons. cbn [star]. rewrite Hc, IH by done.
    unfold consume. cbn [fst snd]. by destruct (grp a).
Qed.

Lemma match_here_spaces ws re s r :
  spaces ws →
  match s with String c _ => is_space c = false | EmptyString => True end →
  match_here re s = Some r →
  ∃ t, match_here (spaces0 ++ re) (ws +:+ s) = Some (t, r.2).
Proof.
  intros Hws Hs H. exists (ws +:+ r.1).
  change (spaces0 ++ re) with (Atom is_space Star false :: re).
  cbn [match_here rep]. by rewrite (star_all _ _ ws s r).
Qed.

Lemma match_here_group value re c s r :
  value ≠ "" → noQuote value → is_quote c = true →
  match_here re (String c s) = Some r → r.2 = "" →
  ∃ t, match_here (Atom (λ c, negb (is_quote c)) Plus true :: re)
         (value +:+ String c s) = Some (t, value).
Proof.
  intros Hne Hv Hc H Hr. destruct value as [|v0 value]; [done|].
  unfold noQuote in Hv. cbn [chars_all] in Hv.
  apply andb_prop in Hv as [Hv0 Hv].
  exists (String v0 (value +:+ r.1)). rewrite append_cons.
  cbn [match_here rep cls]. rewrite Hv0.
  rewrite (star_all _ _ value (String c s) r); [| done | | done].
  - unfold consume. cbn [fst snd grp]. by rewrite Hr, append_nil_r.
  - cbn [cls]. by rewrite Hc.
Qed.

Lemma is_quote_not_space c : is_quote c = true → is_space c = false.
Proof.
  unfold is_quote. intros [H|H]%orb_prop; apply Ascii.eqb_eq in H as ->; done.
Qed.

Lemma match_here_assignment key b a q1 value q2 t :
  spaces b → spaces a → is_quote q1 = true → is_quote q2 = true →
  value ≠ "" → noQuote value →
  ∃ matched,
    match_here (assignRegex key)
      (key +:+ b +:+ "=" +:+ a +:+ String q1 (value +:+ String q2 t))
    = Some (matched, value).
Proof.
  intros Hb Ha Hq1 Hq2 Hne Hv. unfold assignRegex.
  destruct (match_here_one is_quote [] q2 t ("", "") Hq2 eq_refl) as [t1 H1].
  destruct (match_here_group value _ q2 t _ Hne Hv Hq2 H1 eq_refl) as [t2 H2].
  destruct (match_here_one is_quote _ q1 _ _ Hq1 H2) as [t3 H3].
  destruct (match_here_spaces a _ (String q1 (value +:+ String q2 t)) _ Ha
              (is_quote_not_space _ Hq1) H3) as [t4 H4].
  destruct (match_here_lit "=" _ _ _ H4) as [t5 H5].
  destruct (match_here_spaces b _
              (String "=" (a +:+ String q1 (value +:+ String q2 t))) _ Hb
              eq_refl H5) as [t6 H6].
  destruct (match_here_lit key _ _ _ H6) as [t7 H7].
  by exists t7.
Qed.

Lemma FindStringSubmatch_here re s r :
  match_here re s = Some r → FindStringSubmatch re s = Some r.
Proof. intros H. destruct s; cbn [FindStringSubmatch]; by rewrite H. Qed.

(** No match starts at a character other than the first of the pattern. *)
Lemma FindStringSubmatch_skip k0 g re pre s :
  chars_all (λ c, negb (Ascii.eqb k0 c)) pre = true →
  FindStringSubmatch (Atom (is_char k0) One g :: re) (pre +:+ s) =
    FindStringSubmatch (Atom (is_char k0) One g :: re) s.
Proof.
  induction pre as [|c pre IH]; [done|].
  cbn [chars_all]. intros [Hc Hpre]%andb_prop. apply negb_true_iff in Hc.
  rewrite append_cons. cbn [FindStringSubmatch match_here rep cls].
  unfold is_char at 1. rewrite Hc. by apply IH.
Qed.

Lemma chars_all_impl (p q : ascii → bool) s :
  (∀ c, p c = true → q c = true) →
  chars_all p s = true → chars_all q s = true.
Proof.
  intros Hpq. induction s as [|c s IH]; [done|]. cbn [chars_all].
  intros [Hc Hs]%andb_prop. by rewrite (Hpq c Hc), IH.
Qed.

Lemma spaces_skip k0 s :
  is_space k0 = false → spaces s →
  chars_all (λ c, negb (Ascii.eqb k0 c)) s = true.
Proof.
  intros Hk. apply chars_all_impl. intros c Hc.
  apply negb_true_iff. destruct (Ascii.eqb_spec k0 c) as [->|]; [|done].
  by rewrite Hk in Hc.
Qed.

Lemma capture_assignment l key k0 key' value :
  key = String k0 key' → is_space k0 = false →
  wellLaid l → value ≠ "" → noQuote value →
  capture (assignRegex key) (assignment l key value) = Some value.
Proof.
  intros Hkey Hk0 (Hi & Hb & Ha & Hq1 & Hq2 & _) Hne Hv.
  destruct (match_here_assignment key (beforeEq l) (afterEq l) (openQuote l)
              value (closeQuote l) (trailing l)) as [matched H]; try done.
  unfold capture, assignment.
  assert (∃ re, assignRegex key = Atom (is_char k0) One false :: re)
    as [re Hre] by (rewrite Hkey; by eexists).
  rewrite Hre in *. rewrite FindStringSubmatch_skip by by apply spaces_skip.
  by rewrite (FindStringSubmatch_here _ _ _ H).
Qed.

Lemma is_quote_skip k0 c :
  is_quote k0 = false → is_quote c = true → negb (Ascii.eqb k0 c) = true.
Proof.
  intros Hk Hc. apply negb_true_iff.
  destruct (Ascii.eqb_spec k0 c) as [->|]; [|done]. by rewrite Hk in Hc.
Qed.

(** After the key of a well laid out assignment no other assignment
    begins: up to the opening quote no character can begin a key, and from
    there on one quote is left. *)
Lemma no_assignment_after_key k0 re key l value :
  assignRegex key = Atom (is_char k0) One false :: re →
  is_space k0 = false → is_quote k0 = false → Ascii.eqb k0 "=" = false →
  wellLaid l → noQuote value →
  FindStringSubmatch (assignRegex key)
    (beforeEq l +:+ "=" +:+ afterEq l
       +:+ String (openQuote l)
             (value +:+ String (closeQuote l) (trailing l))) = None.
Proof.
  intros Hre Hsp Hq Heq (_ & Hb & Ha & Hq1 & Hq2 & Ht) Hv.
  rewrite Hre. rewrite FindStringSubmatch_skip by by apply spaces_skip.
  rewrite (FindStringSubmatch_skip k0 _ _ "=") by (cbn [chars_all]; by rewrite Heq).
  rewrite FindStringSubmatch_skip by by apply spaces_skip.
  change (String (openQuote l) ?x) with (String (openQuote l) "" +:+ x).
  rewrite (FindStringSubmatch_skip k0 _ _ (String (openQuote l) ""))
    by (cbn [chars_all]; by rewrite is_quote_skip).
  rewrite <-Hre. apply few_quotes_no_match; [apply assign_two_quotes|].
  rewrite quotes_app. cbn [quotes].
  rewrite (noQuote_quotes value), (noQuote_quotes (trailing l)), Hq2 by done.
  lia.
Qed.

Lemma FindStringSubmatch_step re c s :
  match_here re (String c s) = None →
  FindStringSubmatch re (String c s) = FindStringSubmatch re s.
Proof. intros H. cbn [FindStringSubmatch]. by rewrite H. Qed.

Lemma assignment_captures l value :
  wellLaid l → value ≠ "" → noQuote value →
  capture sourceRegex (assignment l "source" value) = Some value
  ∧ capture versionRegex (assignment l "source" value) = None
  ∧ capture versionRegex (assignment l "version" value) = Some value
  ∧ capture sourceRegex (assignment l "version" value) = None.
Proof.
  intros Hl Hne Hv. split_and!.
  - by eapply capture_assignment.
  - unfold capture, assignment, versionRegex.
    assert (∃ re, assignRegex "version" = Atom (is_char "v") One false :: re)
      as [re Hre] by by eexists.
    rewrite Hre.
    rewrite FindStringSubmatch_skip by (apply spaces_skip; [done|apply Hl]).
    rewrite (FindStringSubmatch_skip "v" _ _ "source") by done.
    rewrite <-Hre. by erewrite no_assignment_after_key.
  - by eapply capture_assignment.
  - unfold capture, assignment, sourceRegex.
    assert (∃ re, assignRegex "source" = Atom (is_char "s") One false :: re)
      as [re Hre] by by eexists.
    rewrite Hre.
    rewrite FindStringSubmatch_skip by (apply spaces_skip; [done|apply Hl]).
    change ("version" +:+ ?x) with ("ver" +:+ String "s" ("ion" +:+ x)).
    rewrite (FindStringSubmatch_skip "s" _ _ "ver") by done.
    rewrite <-Hre, FindStringSubmatch_step by reflexivity.
    rewrite Hre, (FindStringSubmatch_skip "s" _ _ "ion") by done.
    rewrite <-Hre. by erewrite no_assignment_after_key.
Qed.

(** X13.  An assignment laid out in the usual way is read back: with
    white space before the key and around the equals sign, a quote of
    either kind on each side of a value that is not empty and holds no
    quote, and no quote after it, the pattern of its key captures exactly
    the value, and the pattern of the other key finds nothing on the
    line. *)
Theorem X13_assignment_is_read_back l value :
  wellLaid l → value ≠ "" → noQuote value →
  capture sourceRegex (assignment l "source" value) = Some value
  ∧ capture versionRegex (assignment l "source" value) = None
  ∧ capture versionRegex (assignment l "version" value) = Some value
  ∧ capture sourceRegex (assignment l "version" value) = None.
Proof. apply assignment_captures. Qed.

Lemma X13_assignment_is_read_back_witness :
  capture sourceRegex (assignment exampleLayout "source" "org/mod/aws")
    = Some "org/mod/aws"
  ∧ capture versionRegex (assignment exampleLayout "source" "org/mod/aws")
    = None
  ∧ capture versionRegex (assignment exampleLayout "version" "org/mod/aws")
    = Some "org/mod/aws"
  ∧ capture sourceRegex (assignment exampleLayout "version" "org/mod/aws")
    = None.
Proof.
  apply (X13_assignment_is_read_back exampleLayout "org/mod/aws").
  - vm_compute. repeat split; reflexivity.
  - discriminate.
  - reflexivity.
Defined.

Lemma last_all {A} (x : A) (l : list A) :
  Forall (λ y, y = x) l → l ≠ [] → last l = Some x.
Proof.
  induction 1 as [|y l -> _ IH]; [done|]. intros _.
  destruct l as [|z l]; [done|]. by apply IH.
Qed.

Lemma lastCapture_all re lines x :
  Forall (λ line, capture re line = Some x ∨ capture re line = None) lines →
  Exists (λ line, capture re line = Some x) lines →
  lastCapture re lines = Some x.
Proof.
  intros Hall Hex. unfold lastCapture. apply last_all.
  - clear Hex. induction Hall as [|line lines Hline _ IH]; [constructor|].
    cbn [omap list_omap]. destruct Hline as [E|E]; rewrite E; [|exact IH].
    constructor; [done|exact IH].
  - clear Hall. induction Hex as [line lines Hline|line lines _ IH];
      cbn [omap list_omap].
    + by rewrite Hline.
    + by destruct (capture re line).
Qed.

(** X14.  A module block in the usual layout is recorded as written: when
    the opener is followed by lines among which are a well laid out
    assignment of the source and one of the version, in either order, all
    other lines holding fewer than two quote characters, and then by the
    bare closing brace, the scan maps that source to that version and goes
    on after the brace. *)
Theorem X14_block_is_read_back opener inside rest m ls lv source version :
  MatchString moduleRegex opener = true →
  wellLaid ls → source ≠ "" → noQuote source →
  wellLaid lv → version ≠ "" → noQuote version →
  assignment ls "source" source ∈ inside →
  assignment lv "version" version ∈ inside →
  Forall (λ line, line = assignment ls "source" source
                  ∨ line = assignment lv "version" version
                  ∨ ((quotes line < 2)%nat ∧ line ≠ "}")) inside →
  scanLines (opener :: inside ++ "}" :: rest) m =
    scanLines rest (Maps (<[source := version]> (moduleMap m)) (providerMap m)).
Proof.
  intros Hopener Hls Hs Hsq Hlv Hv Hvq Hins Hinv Hall.
  destruct (assignment_captures ls source) as (Hss & Hsv & _); try done.
  destruct (assignment_captures lv version) as (_ & _ & Hvv & Hvs); try done.
  assert (capture sourceRegex "}" = None) as Hbs by (vm_compute; reflexivity).
  assert (capture versionRegex "}" = None) as Hbv by (vm_compute; reflexivity).
  assert ("}" ∉ inside) as Hbrace.
  { intros Hin. rewrite Forall_forall in Hall.
    destruct (Hall _ Hin) as [E|[E|[_ E]]]; [| |done].
    - rewrite <-E in Hss. by rewrite Hbs in Hss.
    - rewrite <-E in Hvv. by rewrite Hbv in Hvv. }
  rewrite (cons_middle "}" inside rest), app_assoc.
  rewrite module_block_emits; [|done|left; by exists inside].
  rewrite (lastCapture_all sourceRegex _ source),
    (lastCapture_all versionRegex _ version); [done| | | |].
  - apply Forall_app. split; [|by repeat constructor; right].
    eapply Forall_impl; [exact Hall|]. intros line [->|[->|[Hq _]]].
    + by right.
    + by left.
    + right. by apply few_quotes_no_capture.
  - apply Exists_app. left. apply Exists_exists. by exists (assignment lv "version" version).
  - apply Forall_app. split; [|by repeat constructor; right].
    eapply Forall_impl; [exact Hall|]. intros line [->|[->|[Hq _]]].
    + by left.
    + by right.
    + right. by apply few_quotes_no_capture.
  - apply Exists_app. left. apply Exists_exists. by exists (assignment ls "source" source).
Qed.

(** X12 on a line that assigns a number. *)
Lemma X12_lines_without_quotes_are_passed_witness :
  scanLines ["  count = 2"; "provider 'aws' {"] noMaps =
    scanLines ["provider 'aws' {"] noMaps
  ∧ moduleBody "org/net/aws" "1.2.0" ["  count = 2"; "}"] =
      moduleBody "org/net/aws" "1.2.0" ["}"].
Proof.
  destruct (X12_lines_without_quotes_are_passed "  count = 2"
              ltac:(cbn; lia)) as [Houter Hinner].
  split; [apply Houter|apply Hinner; discriminate].
Defined.

(** X14 on a block with a comment, an empty line and a numeric argument
    between the two assignments, the version written first. *)
Lemma X14_block_is_read_back_witness :
  scanLines
    (("module " +:+ quoted "net" +:+ " {")
       :: [ "  # network";
            assignment exampleLayout "version" "1.2.0";
            "";
            assignment exampleLayout "source" "org/net/aws";
            "  count = 2" ] ++ "}" :: []) noMaps =
    scanLines []
      (Maps (<["org/net/aws" := "1.2.0"]> (moduleMap noMaps))
         (providerMap noMaps)).
Proof.
  apply (X14_block_is_read_back ("module " +:+ quoted "net" +:+ " {")
           [ "  # network";
             assignment exampleLayout "version" "1.2.0";
             "";
             assignment exampleLayout "source" "org/net/aws";
             "  count = 2" ] [] noMaps exampleLayout exampleLayout
           "org/net/aws" "1.2.0").
  - vm_compute. reflexivity.
  - vm_compute. repeat split; reflexivity.
  - discriminate.
  - reflexivity.
  - vm_compute. repeat split; reflexivity.
  - discriminate.
  - reflexivity.
  - repeat constructor.
  - repeat constructor.
  - repeat first
      [ apply Forall_nil
      | apply Forall_cons; split;
        [ first [ left; reflexivity
                | right; left; reflexivity
                | right; right; split; [cbn; lia|discriminate] ] | ] ].
  exact I.
Defined.

(** ** Openers *)

Lemma match_here_plus p value re s r :
  value ≠ "" → chars_all p value = true →
  match s with String c _ => p c = false | EmptyString => True end →
  match_here re s = Some r →
  ∃ t, match_here (Atom p Plus false :: re) (value +:+ s) = Some (t, r.2).
Proof.
  intros Hne Hv Hs H. destruct value as [|v0 value]; [done|].
  cbn [chars_all] in Hv. apply andb_prop in Hv as [Hv0 Hv].
  exists (String v0 (value +:+ r.1)). rewrite append_cons.
  cbn [match_here rep cls]. rewrite Hv0.
  by rewrite (star_all _ _ value s r).
Qed.

Lemma MatchString_later re pre s r :
  match_here re s = Some r → MatchString re (pre +:+ s) = true.
Proof.
  intros H. unfold MatchString. apply bool_decide_eq_true.
  induction pre as [|c pre IH].
  - change ("" +:+ s) with s. by rewrite (FindStringSubmatch_here _ _ _ H).
  - rewrite append_cons. cbn [FindStringSubmatch].
    by destruct (match_here re (String c (pre +:+ s))).
Qed.

(** X15.  The opener of a module block is recognised wherever it stands
    on its line: the keyword, white space, a name between double quotes
    that is not empty and holds no double quote, optional white space and
    an opening brace open a block, whatever precedes the keyword and
    whatever follows the brace. *)
Theorem X15_opener_is_recognised before sp1 name sp2 after :
  spaces sp1 → sp1 ≠ "" → name ≠ "" → noDQ name → spaces sp2 →
  MatchString moduleRegex (moduleOpener before sp1 name sp2 after) = true.
Proof.
  intros Hsp1 Hne1 Hname Hdq Hsp2. unfold moduleOpener, moduleRegex.
  destruct (match_here_lit "{" [] after ("", "") eq_refl) as [t1 H1].
  destruct (match_here_spaces sp2 _ (String "{" after) _ Hsp2 eq_refl H1)
    as [t2 H2].
  destruct (match_here_lit (String DQ "") _ _ _ H2) as [t3 H3].
  destruct (match_here_plus (λ c, negb (Ascii.eqb c DQ)) name _
              (String DQ (sp2 +:+ "{" +:+ after)) _ Hname Hdq eq_refl H3)
    as [t4 H4].
  destruct (match_here_lit (String DQ "") _ _ _ H4) as [t5 H5].
  destruct (match_here_plus is_space sp1 _
              (String DQ (name +:+ String DQ (sp2 +:+ "{" +:+ after))) _
              Hne1 Hsp1 eq_refl H5) as [t6 H6].
  destruct (match_here_lit "module" _ _ _ H6) as [t7 H7].
  by eapply MatchString_later.
Qed.

(** X15 on an opener behind a comment sign. *)
Lemma X15_opener_is_recognised_witness :
  MatchString moduleRegex
    (moduleOpener "# " " " "net's" "" " # see below") = true.
Proof.
  apply (X15_opener_is_recognised "# " " " "net's" "" " # see below");
    first [reflexivity | discriminate].
Defined.

Lemma providerOpener_captures l name :
  wellLaid l → name ≠ "" → noQuote name →
  MatchString moduleRegex (providerOpener l name) = false
  ∧ capture providerRegex (providerOpener l name) = Some name
  ∧ capture versionRegex (providerOpener l name) = None.
Proof.
  intros (Hi & Hb & _ & Hq1 & Hq2 & Ht) Hne Hv.
  assert (quotes (name +:+ String (closeQuote l) (trailing l)) < 2)%nat as Hq.
  { rewrite quotes_app. cbn [quotes].
    rewrite (noQuote_quotes name), (noQuote_quotes (trailing l)), Hq2 by done.
    lia. }
  unfold providerOpener. split_and!.
  - apply not_true_iff_false. unfold MatchString. rewrite bool_decide_eq_true.
    assert (∃ re, moduleRegex = Atom (is_char "m") One false :: re)
      as [re Hre] by by eexists.
    rewrite Hre.
    rewrite FindStringSubmatch_skip by by apply spaces_skip.
    rewrite (FindStringSubmatch_skip "m" _ _ "provider") by done.
    rewrite FindStringSubmatch_skip by by apply spaces_skip.
    change (String (openQuote l) ?x) with (String (openQuote l) "" +:+ x).
    rewrite (FindStringSubmatch_skip "m" _ _ (String (openQuote l) ""))
      by (cbn [chars_all]; by rewrite is_quote_skip).
    rewrite <-Hre, (few_quotes_no_match moduleRegex);
      [by intros [? ?]|apply module_two_quotes|done].
  - destruct (match_here_one is_quote [] (closeQuote l) (trailing l) ("", "")
                Hq2 eq_refl) as [t1 H1].
    destruct (match_here_group name _ (closeQuote l) (trailing l) _
                Hne Hv Hq2 H1 eq_refl) as [t2 H2].
    destruct (match_here_one is_quote _ (openQuote l) _ _ Hq1 H2) as [t3 H3].
    destruct (match_here_spaces (beforeEq l) _
                (String (openQuote l)
                   (name +:+ String (closeQuote l) (trailing l))) _ Hb
                (is_quote_not_space _ Hq1) H3) as [t4 H4].
    destruct (match_here_lit "provider" _ _ _ H4) as [t5 H5].
    unfold capture.
    assert (∃ re, providerRegex = Atom (is_char "p") One false :: re)
      as [re Hre] by by eexists.
    rewrite Hre. rewrite FindStringSubmatch_skip by by apply spaces_skip.
    rewrite <-Hre. by erewrite FindStringSubmatch_here; [|exact H5].
  - unfold capture, versionRegex.
    assert (∃ re, assignRegex "version" = Atom (is_char "v") One false :: re)
      as [re Hre] by by eexists.
    rewrite Hre.
    rewrite FindStringSubmatch_skip by by apply spaces_skip.
    change ("provider" +:+ ?x) with ("pro" +:+ String "v" ("ider" +:+ x)).
    rewrite (FindStringSubmatch_skip "v" _ _ "pro") by done.
    rewrite <-Hre, FindStringSubmatch_step by reflexivity.
    rewrite Hre, (FindStringSubmatch_skip "v" _ _ "ider") by done.
    rewrite FindStringSubmatch_skip by by apply spaces_skip.
    change (String (openQuote l) ?x) with (String (openQuote l) "" +:+ x).
    rewrite (FindStringSubmatch_skip "v" _ _ (String (openQuote l) ""))
      by (cbn [chars_all]; by rewrite is_quote_skip).
    rewrite <-Hre, (few_quotes_no_match (assignRegex "version"));
      [done|apply assign_two_quotes|done].
Qed.

(** X16.  The opener of a provider block in the usual layout records the
    provider with an empty version: the keyword, optional white space, a
    name between quotes of either kind and no quote after it add the name
    to the provider map with the empty string, so that a version assigned
    on a later line of the block is never the provider's. *)
Theorem X16_provider_opener_is_read_back l name rest m :
  wellLaid l → name ≠ "" → noQuote name →
  scanLines (providerOpener l name :: rest) m =
    scanLines rest (Maps (moduleMap m) (<[name := ""]> (providerMap m))).
Proof.
  intros Hl Hne Hv.
  destruct (providerOpener_captures l name) as (Hm & Hp & Hver); try done.
  simpl. rewrite Hm.
  assert (MatchString providerRegex (providerOpener l name) = true) as ->
    by (apply MatchString_capture; by rewrite Hp).
  by rewrite emitProvider_capture, Hp, Hver.
Qed.

(** X16 on a provider block that pins a version inside its braces. *)
Lemma X16_provider_opener_is_read_back_witness :
  scanLines
    [ providerOpener
        {| indent := ""; beforeEq := " "; afterEq := "";
           openQuote := DQ; closeQuote := DQ; trailing := " {" |} "aws";
      "  version = " +:+ quoted "~> 4.0";
      "}" ] noMaps =
    scanLines ["  version = " +:+ quoted "~> 4.0"; "}"]
      (Maps (moduleMap noMaps) (<["aws" := ""]> (providerMap noMaps))).
Proof.
  apply (X16_provider_opener_is_read_back
           {| indent := ""; beforeEq := " "; afterEq := "";
              openQuote := DQ; closeQuote := DQ; trailing := " {" |} "aws"
           ["  version = " +:+ quoted "~> 4.0"; "}"] noMaps).
  - vm_compute. repeat split; reflexivity.
  - discriminate.
  - reflexivity.
Defined.

(** ** Entries that cannot be read *)

Lemma walk_all_read files m :
  Forall (λ f, fileErr f = None) files → (walk files m).2 = None.
Proof.
  intros Hall. revert m.
  induction Hall as [|f files Hf _ IH]; intros m; [done|].
  cbn [walk]. destruct f as [e|lines [e|]]; try done. apply IH.
Qed.

Section unreadable_entries.
Variable Open : string → file.
Context `{P : SemverPkg} `{S : Sorter}.
Variable reg : registry.

(** X17.  An entry of the root that cannot be examined, or a directory
    among its entries that cannot be listed, ends the run when the walk
    reaches it, also when it is a
    directory whose name begins with a dot and that would have been
    skipped: the run prints the error and nothing else, and no request is
    made. *)
Theorem X17_unreadable_entry_ends_the_run range path name before bad after
    e w :
  HasPrefix name "." = false →
  unreadable bad = Some e →
  Forall (λ f, fileErr f = None) (flat_map (tfFiles Open) before) →
  main_tree Open reg range
      (Directory path name None (before ++ bad :: after)) w =
    (Returned (),
     {| requests := requests w;
        stdout := stdout w ++ ["Error: " +:+ Error e +:+ NL] |}).
Proof.
  intros Hname Hbad Hbefore. unfold main_tree.
  rewrite filepath_Walk_tfFiles. cbn [tfFiles]. rewrite Hname.
  rewrite flat_map_app, walk_app.
  pose proof (walk_all_read _ (Maps ∅ ∅) Hbefore) as Hok.
  destruct (walk (flat_map (tfFiles Open) before) (Maps ∅ ∅)) as [m' [e'|]];
    [done|].
  assert (tfFiles Open bad = [OpenFails e]) as Hfiles.
  { destruct bad as [p e'|p n|p n [e'|] sub]; simplify_eq/=; done. }
  cbn [flat_map]. by rewrite Hfiles.
Qed.
End unreadable_entries.

(** X17 on a tree whose hidden directory cannot be listed. *)
Lemma X17_unreadable_entry_ends_the_run_witness :
  main_tree exampleOpen smallRegistry map_to_list
    (Directory "infra" "infra" None
       ([Directory "infra/net" "net" None
           [Plain "infra/net/main.tf" "main.tf"]]
          ++ Directory "infra/.git" ".git"
               (Some (FileError "open infra/.git: permission denied")) []
          :: [])) start =
    (Returned (),
     {| requests := [];
        stdout := ["Error: open infra/.git: permission denied" +:+ NL] |}).
Proof.
  apply (X17_unreadable_entry_ends_the_run exampleOpen smallRegistry
           map_to_list "infra" "infra"
           [Directory "infra/net" "net" None
              [Plain "infra/net/main.tf" "main.tf"]]
           (Directory "infra/.git" ".git"
              (Some (FileError "open infra/.git: permission denied")) [])
           [] (FileError "open infra/.git: permission denied") start).
  - reflexivity.
  - reflexivity.
  - vm_compute. repeat constructor.
Defined.
